(** * A shallow embedding of [src/graphQL/createSchema.js]

    The schema-derivation engine of reindex-api: from a map of common types
    and a list of metadata descriptors it builds a registry of type sets
    (object type, connection type, input object, mutation type) in two passes
    and assembles the two root types.

    Conventions of the embedding.
    - An Immutable.js [Map] is a [gmap].  Immutable.js visits the entries of
      a small map in the order in which the keys were first set and those of
      a larger one in the order of its hash trie; the model visits them in
      the order of [map_to_list].  When several entries make a callback
      raise, the exception that comes out may therefore be that of another
      entry than in the code; no statement below says which one it is.
    - A plain JS object used as a field map is an association list of its own
      properties with unique keys, in the order in which the keys were first
      set ([toObject] below builds one).  The order in which JS enumerates
      the keys (integer-like keys first) is not modelled: the order of the
      list does not stand for it.
    - Of the checks that the constructors of graphql-js make, the model has
      the one that a descriptor can fail: a type must be named.  The other
      types built here have names that start with an underscore, and the
      schema constructor is a record.
    - An [undefined] property or a missing map key is [None].
    - A JS exception is the [Throw] result; the calls that build the registry
      are additionally logged as events.
    - A closure is represented by the data it captures.  The field thunk of
      [createType] captures the metadata and reads the mutable binding
      [typeSets] when it is forced, so forcing takes the current registry as
      an argument. *)

From stdpp Require Import gmap strings list fin_maps.

Local Open Scope list_scope.

Set Warnings "-register-all".

(** ** Results of fallible code *)

Inductive Error : Type :=
| TypeError (msg : string)
| Invariant (msg : string).

Inductive result (A : Type) : Type :=
| Ok (a : A)
| Throw (e : Error).

Arguments Ok {A} a.
Arguments Throw {A} e.

Global Instance result_ret : MRet result := fun _ a => Ok a.

Global Instance result_bind : MBind result := fun _ _ f m =>
  match m with
  | Ok a => f a
  | Throw e => Throw e
  end.

Definition isOk {A} (r : result A) : bool :=
  match r with Ok _ => true | Throw _ => false end.

(** ** The metadata (section 3 of the specification, read by [field.get]) *)

Record FieldMetadata : Type := {
  field_name : string;
  field_type : string;
  field_isRequired : option bool;
  field_isDeprecated : option bool;
  field_target : option string;
  field_reverseName : option string;
}.

Record TypeMetadata : Type := {
  type_name : string;
  type_fields : list FieldMetadata;
}.

(** ** The GraphQL type system, as far as the code inspects it *)

Inductive GraphQLInterfaceType : Type :=
| Interface (name : string).

(** The classes of graphql-js that the code builds or tests with
    [instanceof].  An object type carries its name, the interfaces it
    declares and its [fields] configuration: either the thunk that
    [createType] installs, given by the metadata it closes over, or a field
    map that is already there (a type supplied from outside, a connection
    type, a mutation type, a root type). *)
Inductive GraphQLType : Type :=
| GraphQLScalarType (name : string)
| GraphQLObject (o : GraphQLObjectType)
| GraphQLInputObjectType (name : string) (fields : list (string * GraphQLType))
| GraphQLList (ofType : GraphQLType)
| GraphQLNonNull (ofType : GraphQLType)
with GraphQLObjectType : Type :=
| ObjectType (name : string) (interfaces : list GraphQLInterfaceType)
             (fields : FieldsConfig)
with FieldsConfig : Type :=
| FieldsThunk (metadata : list FieldMetadata)
| FieldsLiteral (fields : list (string * GraphQLType)).

Definition nameOf (o : GraphQLObjectType) : string :=
  match o with ObjectType n _ _ => n end.

Definition getInterfaces (o : GraphQLObjectType) : list GraphQLInterfaceType :=
  match o with ObjectType _ i _ => i end.

Definition fieldsConfig (o : GraphQLObjectType) : FieldsConfig :=
  match o with ObjectType _ _ f => f end.

Definition GraphQLString : GraphQLType := GraphQLScalarType "String".
Definition GraphQLID : GraphQLType := GraphQLScalarType "ID".
Definition GraphQLInt : GraphQLType := GraphQLScalarType "Int".
Definition GraphQLFloat : GraphQLType := GraphQLScalarType "Float".
Definition GraphQLBoolean : GraphQLType := GraphQLScalarType "Boolean".

(** Modelled from the spec: [DateTime] of [./builtIns], the pre-built
    date-time scalar. *)
Definition DateTime : GraphQLType := GraphQLScalarType "DateTime".

(** Lines 106-113. *)
Definition PRIMITIVE_TYPE_MAP : gmap string GraphQLType :=
  list_to_map [
    ("id", GraphQLID);
    ("string", GraphQLString);
    ("integer", GraphQLInt);
    ("number", GraphQLFloat);
    ("boolean", GraphQLBoolean);
    ("datetime", DateTime)
  ].

(** ** Field definitions and type sets *)

(** The two pagination argument kinds of a connection field. *)
Inductive ArgDef : Type :=
| CursorArg
| CountArg.

(** The resolver closures of [createField], by what they capture. *)
Inductive Resolver : Type :=
| ResolveConnection (target : string) (reverseName : option string)
| ResolveById (fieldType fieldName : string).

(** The object literal returned by [createField] (lines 145-151). *)
Record FieldDefinition : Type := {
  fd_name : string;
  fd_type : GraphQLType;
  fd_args : list (string * ArgDef);
  fd_resolve : option Resolver;
  fd_isDeprecated : bool;
}.

(** [class TypeSet extends Record({...})] (lines 85-90); every property
    defaults to [undefined]. *)
Record TypeSet : Type := {
  type : GraphQLObjectType;
  connection : option GraphQLObjectType;
  inputObject : option GraphQLType;
  mutation : option GraphQLObjectType;
}.

Global Instance GraphQLInterfaceType_eq_dec : EqDecision GraphQLInterfaceType.
Proof. solve_decision. Defined.

Record Interfaces : Type := {
  Connection : GraphQLInterfaceType;
  Mutation : GraphQLInterfaceType;
}.

(** ** The collaborators imported from other modules *)

(** Modelled from the spec: [createInterfaces] of [./builtIns], an import
    whose source is not part of this module.  The specification names a
    generic Connection interface and a generic Mutation interface, supplied
    pre-built. *)
Definition createInterfaces : Interfaces :=
  {| Connection := Interface "Connection"; Mutation := Interface "Mutation" |}.

(** Modelled from the spec: [createConnection] of [./connections]
    (section 4.3).  It builds a pagination wrapper around [typeSet.type] that
    conforms to the generic Connection interface, in the edges/pageInfo shape;
    the names are a choice of the model. *)
Definition createConnection (typeSet : TypeSet) (interfaces : Interfaces)
  : GraphQLObjectType :=
  ObjectType ("_" +:+ nameOf (type typeSet) +:+ "Connection")
    [Connection interfaces]
    (FieldsLiteral [
       ("edges", GraphQLList (GraphQLObject (type typeSet)));
       ("pageInfo", GraphQLObject (ObjectType "PageInfo" [] (FieldsLiteral [
          ("hasNextPage", GraphQLBoolean);
          ("hasPreviousPage", GraphQLBoolean);
          ("startCursor", GraphQLString);
          ("endCursor", GraphQLString)])))]).

(** Modelled from the spec: [createConnectionArguments] of [./connections]
    (sections 4.3 and 6): the fixed set of forward cursor, backward cursor,
    forward page size and backward page size; the argument names are a choice
    of the model. *)
Definition createConnectionArguments : list (string * ArgDef) :=
  [("after", CursorArg); ("before", CursorArg);
   ("first", CountArg); ("last", CountArg)].

(** ** Plain JS objects as field maps *)

(** Defining the own property [k] of an object, as an object literal does
    for each of its keys, computed ones included: an existing key keeps its
    position, a new key is appended. *)
Fixpoint defineProperty {V} (k : string) (v : V) (o : list (string * V))
  : list (string * V) :=
  match o with
  | [] => [(k, v)]
  | (k', v') :: o' =>
      if String.eqb k k' then (k, v) :: o' else (k', v') :: defineProperty k v o'
  end.

(** An object literal: its properties are defined in order. *)
Definition objectLiteral {V} (entries : list (string * V)) : list (string * V) :=
  fold_left (fun o kv => defineProperty kv.1 kv.2 o) entries [].

(** The assignment [o[k] = v] on an object that inherits from
    [Object.prototype].  For the key [__proto__] the inherited setter runs:
    the prototype of the object changes and no own property is created. *)
Definition setProperty {V} (k : string) (v : V) (o : list (string * V))
  : list (string * V) :=
  if String.eqb k "__proto__" then o else defineProperty k v o.

(** [.toObject()] of a keyed sequence: starting from the empty object, the
    entries are assigned in order. *)
Definition toObject {V} (entries : list (string * V)) : list (string * V) :=
  fold_left (fun o kv => setProperty kv.1 kv.2 o) entries [].

(** Reading a property of a value that may be [undefined]. *)
Definition property {A} (p : string) (v : option A) : result A :=
  match v with
  | Some a => Ok a
  | None => Throw (TypeError ("Cannot read property '" +:+ p +:+ "' of undefined"))
  end.

(** The model has no [undefined] in the place of a type.  Every entry of the
    registry carries its connection type (lines 38 and 51, lemma
    [registerAll_connection] below), so [typeSet.connection] of a registered
    type set is defined whenever a field thunk runs. *)
Definition exposed (c : option GraphQLObjectType) : result GraphQLObjectType :=
  match c with
  | Some o => Ok o
  | None => Throw (TypeError "field type is undefined")
  end.

(** ** [createField] (lines 115-152) *)

(** Lines 118-139: the branch decides the type, the arguments and the
    resolver.  The first test is [fieldType === 'connection' &&
    field.has('target')] (line 121); [otherwise] is the rest of the chain
    (lines 131-139). *)
Definition createFieldBranch (field : FieldMetadata)
    (getTypeSet : string -> option TypeSet)
  : result (GraphQLType * list (string * ArgDef) * option Resolver) :=
  let fieldName := field_name field in
  let fieldType := field_type field in
  let otherwise :=
    match PRIMITIVE_TYPE_MAP !! fieldType with
    | Some scalar => Ok (scalar, [], None)
    | None =>
        typeSet ← property "type" (getTypeSet fieldType);
        Ok (GraphQLObject (type typeSet), [],
            Some (ResolveById fieldType fieldName))
    end in
  match field_target field with
  | Some target =>
      if String.eqb fieldType "connection" then
        typeSet ← property "connection" (getTypeSet target);
        connection ← exposed (connection typeSet);
        Ok (GraphQLObject connection, createConnectionArguments,
            Some (ResolveConnection target (field_reverseName field)))
      else otherwise
  | None => otherwise
  end.

Definition createField (field : FieldMetadata)
    (getTypeSet : string -> option TypeSet) : result FieldDefinition :=
  '(type, argDef, resolve) ← createFieldBranch field getTypeSet;
  let type :=
    if default false (field_isRequired field) then GraphQLNonNull type
    else type in
  Ok {| fd_name := field_name field;
        fd_type := type;
        fd_args := argDef;
        fd_resolve := resolve;
        fd_isDeprecated := default false (field_isDeprecated field) |}.

(** ** [createType] (lines 92-104) *)

(** [new GraphQLObjectType(config)]: the constructor of graphql-js refuses a
    configuration without a name.  The other types this module constructs
    carry a name that starts with an underscore. *)
Definition newGraphQLObjectType (o : GraphQLObjectType)
  : result GraphQLObjectType :=
  if String.eqb (nameOf o) "" then Throw (Invariant "Type must be named.")
  else Ok o.

(** The object type of a descriptor (lines 93-103): its name, no interface,
    and the field thunk. *)
Definition objectTypeOf (typeMetadata : TypeMetadata) : GraphQLObjectType :=
  ObjectType (type_name typeMetadata) [] (FieldsThunk (type_fields typeMetadata)).

(** The object type is constructed at once; its field map is the thunk. *)
Definition createType (typeMetadata : TypeMetadata)
  : result GraphQLObjectType :=
  newGraphQLObjectType (objectTypeOf typeMetadata).

(** [type.getFields()]: forces the field thunk.  The closure passed as
    [getTypeSet] (lines 46-48) reads the binding [typeSets] when it runs, so
    the registry current at that moment is an argument.  A type supplied from
    outside carries its field map; of its fields only the exposed types are
    modelled. *)
Definition getFields (typeSets : gmap string TypeSet) (o : GraphQLObjectType)
  : result (list (string * FieldDefinition)) :=
  match fieldsConfig o with
  | FieldsThunk metadata =>
      entries ← mapM (fun field =>
                   fd ← createField field (fun name => typeSets !! name);
                   Ok (field_name field, fd)) metadata;
      Ok (toObject entries)
  | FieldsLiteral fields =>
      Ok (map (fun nt => (nt.1, {| fd_name := nt.1; fd_type := nt.2;
                                   fd_args := []; fd_resolve := None;
                                   fd_isDeprecated := false |})) fields)
  end.

(** ** [createInputObject] (lines 154-194) *)

(** A parameter that is destructured ([{Connection}], [{Mutation}]): the call
    raises when the argument is missing. *)
Definition destructure {A} (p : string) (arg : option A) : result A :=
  match arg with
  | Some a => Ok a
  | None =>
      Throw (TypeError ("Cannot destructure property '" +:+ p +:+ "' of undefined"))
  end.

(** Lines 158-164.  Only an object type has a [getInterfaces] method. *)
Definition keepInputField (Connection : GraphQLInterfaceType)
    (name : string) (field : FieldDefinition) : bool :=
  negb (String.eqb name "id") &&
  match fd_type field with
  | GraphQLObject o => negb (bool_decide (Connection ∈ getInterfaces o))
  | _ => true
  end.

Definition isInputObjectType (t : GraphQLType) : bool :=
  match t with GraphQLInputObjectType _ _ => true | _ => false end.

Definition isScalarType (t : GraphQLType) : bool :=
  match t with GraphQLScalarType _ => true | _ => false end.

(** Lines 165-191.  [parentType.constructor] is the wrapper the original type
    was built with. *)
Definition inputFieldType (type : GraphQLType) : GraphQLType :=
  let '(parentType, fieldType) :=
    match type with
    | GraphQLList ofType => (Some GraphQLList, ofType)
    | GraphQLNonNull ofType => (Some GraphQLNonNull, ofType)
    | _ => (None, type)
    end in
  if isInputObjectType fieldType || isScalarType fieldType then type
  else
    match parentType with
    | Some constructor => constructor GraphQLString
    | None => GraphQLString
    end.

Definition inputFields (Connection : GraphQLInterfaceType)
    (fields : list (string * FieldDefinition)) : list (string * GraphQLType) :=
  (fun nf => (nf.1, inputFieldType (fd_type nf.2))) <$>
    filter (fun nf => keepInputField Connection nf.1 nf.2 = true) fields.

Definition createInputObject (typeSets : gmap string TypeSet)
    (typeSet : TypeSet) (interfaces : option Interfaces) : result GraphQLType :=
  interfaces ← destructure "Connection" interfaces;
  fields ← getFields typeSets (type typeSet);
  Ok (GraphQLInputObjectType ("_" +:+ nameOf (type typeSet) +:+ "InputObject")
        (inputFields (Connection interfaces) fields)).

(** ** [createMutation] (lines 196-209) *)

Definition createMutation (typeSet : TypeSet) (interfaces : option Interfaces)
  : result GraphQLObjectType :=
  interfaces ← destructure "Mutation" interfaces;
  Ok (ObjectType ("_" +:+ nameOf (type typeSet) +:+ "Mutation")
        [Mutation interfaces]
        (FieldsLiteral (objectLiteral [
           ("clientMutationId", GraphQLID);
           (nameOf (type typeSet), GraphQLObject (type typeSet))]))).

(** ** Runs of the orchestrator: the calls made, and the outcome *)

Inductive Event : Type :=
| CreateType (name : string)
| CreateConnection (name : string)
| CreateInputObject (name : string)
| CreateMutation (name : string)
| Registered (name : string).

Record Run (A : Type) : Type := {
  trace : list Event;
  outcome : result A;
}.

Arguments trace {A} r.
Arguments outcome {A} r.

Global Instance Run_ret : MRet Run := fun _ a =>
  {| trace := []; outcome := Ok a |}.

Global Instance Run_bind : MBind Run := fun _ _ f m =>
  match outcome m with
  | Ok a => {| trace := trace m ++ trace (f a); outcome := outcome (f a) |}
  | Throw e => {| trace := trace m; outcome := Throw e |}
  end.

(** A logged call. *)
Definition call {A} (e : Event) (r : result A) : Run A :=
  {| trace := [e]; outcome := r |}.

(** [m.map(f)] on an Immutable.js [Map]: eager, one call per entry, and the
    first exception ends it.  The entries are visited in the order of
    [map_to_list] (see the conventions at the top). *)
Definition mapValues {A B} (f : A -> Run B) (m : gmap string A)
  : Run (gmap string B) :=
  entries ← mapM (fun kv => v ← f kv.2; mret (kv.1, v)) (map_to_list m);
  mret (list_to_map entries).

(** [l.forEach(f)] where [f] updates a local binding. *)
Fixpoint forEach {S A} (f : S -> A -> Run S) (l : list A) (s : S) : Run S :=
  match l with
  | [] => mret s
  | x :: l' => s' ← f s x; forEach f l' s'
  end.

(** ** [createSchema] (lines 27-83) *)

Record GraphQLSchema : Type := {
  query : GraphQLObjectType;
  mutation_root : GraphQLObjectType;
}.

(** The first, destructured parameter.  A root field is modelled by its name
    and exposed type; a creator is a callback from a type set to a root
    field. *)
Record Config : Type := {
  commonTypes : gmap string GraphQLObjectType;
  commonQueryFields : gmap string GraphQLType;
  commonMutationFields : gmap string GraphQLType;
  typeQueryFieldCreators : list (TypeSet -> string * GraphQLType);
  typeMutationFieldCreators : list (TypeSet -> string * GraphQLType);
}.

(** Modelled from the spec: [createRootFieldsForTypes] of
    [./createRootFieldsForTypes], the thin aggregation step of section 2:
    every creator is applied to every type set and the generated root fields
    are collected into one map. *)
Definition createRootFieldsForTypes
    (creators : list (TypeSet -> string * GraphQLType))
    (typeSets : gmap string TypeSet) : gmap string GraphQLType :=
  list_to_map
    (flat_map (fun kv => map (fun creator => creator kv.2) creators)
              (map_to_list typeSets)).

(** Lines 35-42, the callback.  The binding [typeSets] is not initialised
    while it runs; the registry argument of [createInputObject] stands for a
    binding that the call never gets to read. *)
Definition seedTypeSet (interfaces : Interfaces) (type : GraphQLObjectType)
  : Run TypeSet :=
  let typeSet := {| type := type; connection := None;
                    inputObject := None; mutation := None |} in
  connection ← call (CreateConnection (nameOf type))
                    (Ok (createConnection typeSet interfaces));
  inputObject ← call (CreateInputObject (nameOf type))
                     (createInputObject ∅ typeSet None);
  mutation ← call (CreateMutation (nameOf type))
                  (createMutation typeSet (Some interfaces));
  mret {| type := type; connection := Some connection;
          inputObject := Some inputObject; mutation := Some mutation |}.

(** Lines 44-52, the callback. *)
Definition registerType (interfaces : Interfaces)
    (typeSets : gmap string TypeSet) (typeMetadata : TypeMetadata)
  : Run (gmap string TypeSet) :=
  let typeName := type_name typeMetadata in
  type ← call (CreateType typeName) (createType typeMetadata);
  let typeSet := {| type := type; connection := None;
                    inputObject := None; mutation := None |} in
  connection ← call (CreateConnection (nameOf type))
                    (Ok (createConnection typeSet interfaces));
  _ ← call (Registered typeName) (Ok ());
  mret (<[typeName := {| type := type; connection := Some connection;
                         inputObject := None; mutation := None |}]> typeSets).

(** Lines 54-59, the callback; [typeSets] is the registry of pass 1. *)
Definition augmentTypeSet (interfaces : Interfaces)
    (typeSets : gmap string TypeSet) (typeSet : TypeSet) : Run TypeSet :=
  inputObject ← call (CreateInputObject (nameOf (type typeSet)))
                     (createInputObject typeSets typeSet (Some interfaces));
  mutation ← call (CreateMutation (nameOf (type typeSet)))
                  (createMutation typeSet (Some interfaces));
  mret {| type := type typeSet; connection := connection typeSet;
          inputObject := Some inputObject; mutation := Some mutation |}.

(** Lines 34-59: the registry. *)
Definition buildTypeSets (config : Config) (dbMetadata : list TypeMetadata)
  : Run (gmap string TypeSet) :=
  let interfaces := createInterfaces in
  typeSets ← mapValues (seedTypeSet interfaces) (commonTypes config);
  typeSets ← forEach (registerType interfaces) dbMetadata typeSets;
  mapValues (augmentTypeSet interfaces typeSets) typeSets.

Definition createSchema (config : Config) (dbMetadata : list TypeMetadata)
  : Run GraphQLSchema :=
  typeSets ← buildTypeSets config dbMetadata;
  let queryFields :=
    createRootFieldsForTypes (typeQueryFieldCreators config) typeSets
      ∪ commonQueryFields config in
  let mutationFields :=
    createRootFieldsForTypes (typeMutationFieldCreators config) typeSets
      ∪ commonMutationFields config in
  let query :=
    ObjectType "_Query" [] (FieldsLiteral (toObject (map_to_list queryFields))) in
  let mutation :=
    ObjectType "_Mutation" []
      (FieldsLiteral (toObject (map_to_list mutationFields))) in
  mret {| query := query; mutation_root := mutation |}.

(** ** Examples *)

Definition fieldOf (name type : string) (isRequired : option bool)
    (target reverseName : option string) : FieldMetadata :=
  {| field_name := name; field_type := type; field_isRequired := isRequired;
     field_isDeprecated := None; field_target := target;
     field_reverseName := reverseName |}.

Definition Author : TypeMetadata :=
  {| type_name := "Author";
     type_fields := [
       fieldOf "id" "id" (Some true) None None;
       fieldOf "name" "string" (Some true) None None;
       fieldOf "books" "connection" None (Some "Book") (Some "authorId")] |}.

Definition Book : TypeMetadata :=
  {| type_name := "Book";
     type_fields := [
       fieldOf "id" "id" (Some true) None None;
       fieldOf "title" "string" (Some true) None None;
       fieldOf "author" "Author" (Some true) None None] |}.

(** No common types; one common root field on each side. *)
Definition customOnly : Config :=
  {| commonTypes := ∅;
     commonQueryFields := {[ "version" := GraphQLString ]};
     commonMutationFields := {[ "ping" := GraphQLString ]};
     typeQueryFieldCreators := []; typeMutationFieldCreators := [] |}.

Definition UserType : GraphQLObjectType :=
  ObjectType "User" [] (FieldsLiteral [("id", GraphQLID); ("name", GraphQLString)]).

Definition withUser : Config :=
  {| commonTypes := {[ "User" := UserType ]};
     commonQueryFields := {[ "version" := GraphQLString ]};
     commonMutationFields := {[ "ping" := GraphQLString ]};
     typeQueryFieldCreators := []; typeMutationFieldCreators := [] |}.

(** ** Auxiliary definitions used in the statements *)

(** The error of the seeding step. *)
Definition seedingError : Error :=
  TypeError "Cannot destructure property 'Connection' of undefined".

(** The type set that one iteration stores under the type's name. *)
Definition registeredTypeSet (interfaces : Interfaces) (tm : TypeMetadata)
  : TypeSet :=
  let type := objectTypeOf tm in
  {| type := type;
     connection := Some (createConnection
                           {| type := type; connection := None;
                              inputObject := None; mutation := None |}
                           interfaces);
     inputObject := None; mutation := None |}.

(** The registry after the loop of lines 44-52, started from [seed], when
    every type could be constructed. *)
Definition registerAll (interfaces : Interfaces) (md : list TypeMetadata)
    (seed : gmap string TypeSet) : gmap string TypeSet :=
  fold_left (fun typeSets tm =>
               <[type_name tm := registeredTypeSet interfaces tm]> typeSets)
            md seed.

(** The calls the loop of lines 44-52 makes. *)
Definition pass1Events (md : list TypeMetadata) : list Event :=
  flat_map (fun tm => [CreateType (type_name tm);
                       CreateConnection (type_name tm);
                       Registered (type_name tm)]) md.

(** The calls that belong to pass 2. *)
Definition isPass2 (e : Event) : bool :=
  match e with
  | CreateInputObject _ | CreateMutation _ => true
  | _ => false
  end.

(** The barrier between the passes: when a call of pass 2 is made, every one
    of [names] has been registered. *)
Definition barrier (names : list string) (t : list Event) : Prop :=
  ∀ t1 e t2, t = t1 ++ e :: t2 → isPass2 e = true →
    ∀ n, n ∈ names → Registered n ∈ t1.

(** The branch of lines 121, 131 and 133 that a descriptor takes. *)
Inductive Branch : Type :=
| ConnectionBranch (target : string)
| PrimitiveBranch (scalar : GraphQLType)
| ReferenceBranch.

Definition branchOf (field : FieldMetadata) : Branch :=
  let otherwise :=
    match PRIMITIVE_TYPE_MAP !! field_type field with
    | Some scalar => PrimitiveBranch scalar
    | None => ReferenceBranch
    end in
  match field_target field with
  | Some target =>
      if String.eqb (field_type field) "connection" then ConnectionBranch target
      else otherwise
  | None => otherwise
  end.

Definition isNonNull (t : GraphQLType) : bool :=
  match t with GraphQLNonNull _ => true | _ => false end.

Definition isRequired (field : FieldMetadata) : bool :=
  default false (field_isRequired field).

Definition sampleTypeSets : gmap string TypeSet :=
  registerAll createInterfaces [Author; Book] ∅.

Definition wrapRequired (field : FieldMetadata) (t : GraphQLType) : GraphQLType :=
  if isRequired field then GraphQLNonNull t else t.

Definition bookTypeSet : TypeSet := registeredTypeSet createInterfaces Book.

Definition Review : TypeMetadata :=
  {| type_name := "Review";
     type_fields := [
       fieldOf "id" "id" (Some true) None None;
       fieldOf "publisher" "Publisher" None None None] |}.

Definition Shelf : TypeMetadata :=
  {| type_name := "Shelf";
     type_fields := [
       fieldOf "id" "id" (Some true) None None;
       fieldOf "books" "connection" None None (Some "shelfId")] |}.

Definition AuthorWithoutReverseName : TypeMetadata :=
  {| type_name := "Author";
     type_fields := [
       fieldOf "id" "id" (Some true) None None;
       fieldOf "name" "string" (Some true) None None;
       fieldOf "books" "connection" None (Some "Book") None] |}.

(** The type the [.map] callback looks at after lines 169-173. *)
Definition ofTypeOrSelf (t : GraphQLType) : GraphQLType :=
  match t with
  | GraphQLList ofType | GraphQLNonNull ofType => ofType
  | _ => t
  end.

Definition isList (t : GraphQLType) : bool :=
  match t with GraphQLList _ => true | _ => false end.

Definition bookFields : list (string * FieldDefinition) :=
  [("id", {| fd_name := "id"; fd_type := GraphQLNonNull GraphQLID;
             fd_args := []; fd_resolve := None; fd_isDeprecated := false |});
   ("title", {| fd_name := "title"; fd_type := GraphQLNonNull GraphQLString;
                fd_args := []; fd_resolve := None; fd_isDeprecated := false |});
   ("author", {| fd_name := "author";
                 fd_type := GraphQLNonNull (GraphQLObject (objectTypeOf Author));
                 fd_args := [];
                 fd_resolve := Some (ResolveById "Author" "author");
                 fd_isDeprecated := false |})].



(** What a field thunk reads of a type set. *)
Definition passOne (typeSet : TypeSet)
  : GraphQLObjectType * option GraphQLObjectType :=
  (type typeSet, connection typeSet).

Definition augmented (typeSets : gmap string TypeSet) (typeSet : TypeSet)
  : TypeSet :=
  match outcome (augmentTypeSet createInterfaces typeSets typeSet) with
  | Ok typeSet' => typeSet'
  | Throw _ => typeSet
  end.

Definition builtTypeSets : gmap string TypeSet :=
  augmented sampleTypeSets <$> sampleTypeSets.

(** The names a descriptor refers to are among [names]. *)
Definition resolvable (names : list string) (field : FieldMetadata) : bool :=
  match branchOf field with
  | ConnectionBranch target => bool_decide (target ∈ names)
  | PrimitiveBranch _ => true
  | ReferenceBranch => bool_decide (field_type field ∈ names)
  end.

Definition wellFormed (md : list TypeMetadata) : bool :=
  forallb (fun tm => forallb (resolvable (type_name <$> md)) (type_fields tm)) md.



(** The registry key a descriptor makes [createField] look up: the target of
    a connection field (line 123), the type string of a reference field
    (line 134), none for a primitive field. *)
Definition referencedName (field : FieldMetadata) : option string :=
  match branchOf field with
  | ConnectionBranch target => Some target
  | PrimitiveBranch _ => None
  | ReferenceBranch => Some (field_type field)
  end.

(** A registry with a type named like a primitive kind. *)
Definition StringType : TypeMetadata :=
  {| type_name := "string";
     type_fields := [fieldOf "id" "id" (Some true) None None] |}.

Definition shadowedTypeSets : gmap string TypeSet :=
  registerAll createInterfaces [StringType; Book; Author] ∅.

(** A descriptor with a repeated field name. *)
Definition Pamphlet : TypeMetadata :=
  {| type_name := "Pamphlet";
     type_fields := [
       fieldOf "id" "id" (Some true) None None;
       fieldOf "title" "integer" None None None;
       fieldOf "title" "string" (Some true) None None] |}.

(** What line 175 accepts: after one wrapper is taken off, a scalar or an
    input object. *)
Definition inputCompatible (t : GraphQLType) : bool :=
  isInputObjectType (ofTypeOrSelf t) || isScalarType (ofTypeOrSelf t).

Definition isWrapper (t : GraphQLType) : bool := isList t || isNonNull t.

(** A descriptor that a later one of the same name replaces; its field
    refers to a type that is not registered. *)
Definition OldBook : TypeMetadata :=
  {| type_name := "Book";
     type_fields := [
       fieldOf "id" "id" (Some true) None None;
       fieldOf "publisher" "Publisher" None None None] |}.

(** A connection field whose target is not registered. *)
Definition Catalogue : TypeMetadata :=
  {| type_name := "Catalogue";
     type_fields := [
       fieldOf "id" "id" (Some true) None None;
       fieldOf "items" "connection" None (Some "Item") (Some "catalogueId")] |}.

(** The calls pass 2 makes for the types named [names], in that order. *)
Definition pass2Events (names : list string) : list Event :=
  flat_map (fun n => [CreateInputObject n; CreateMutation n]) names.

(** The schema built from [Author] and [Book]. *)
Definition sampleSchema : GraphQLSchema :=
  {| query := ObjectType "_Query" [] (FieldsLiteral [("version", GraphQLString)]);
     mutation_root :=
       ObjectType "_Mutation" [] (FieldsLiteral [("ping", GraphQLString)]) |}.

(** A type set around an object type that comes with its field map, one of
    whose fields is a non-null list of strings. *)
Definition postTypeSet : TypeSet :=
  {| type := ObjectType "Post" []
               (FieldsLiteral [
                  ("id", GraphQLID);
                  ("tags", GraphQLNonNull (GraphQLList GraphQLString))]);
     connection := None; inputObject := None; mutation := None |}.






(** Two outcomes agree up to the exception: both are results, and equal, or
    both are exceptions.  Which exception a run raises when several type sets
    are in error depends on the order in which the registry is traversed, and
    that order is not modelled. *)
Definition sameUpToException {A} (r1 r2 : result A) : Prop :=
  match r1, r2 with
  | Ok a, Ok b => a = b
  | Throw _, Throw _ => True
  | _, _ => False
  end.

(** * Properties *)

(** ** Fallible lists of calls *)

Lemma result_bind_Ok {A B} (m : result A) (f : A -> result B) b :
  m ≫= f = Ok b ↔ ∃ a, m = Ok a ∧ f a = Ok b.
Proof.
  destruct m as [a|e]; simpl; split.
  - eauto.
  - by intros (? & [= <-] & ?).
  - done.
  - by intros (? & ? & ?).
Qed.

Lemma mapM_result_Ok {A B} (f : A -> result B) l l' :
  mapM f l = Ok l' ↔ Forall2 (fun x y => f x = Ok y) l l'.
Proof.
  revert l'. induction l as [|x l IH]; intros l'; simpl.
  - split; [intros [= <-]; constructor | by inversion 1].
  - split.
    + intros (y & Hy & (ys & Hys & [= <-])%result_bind_Ok)%result_bind_Ok.
      constructor; [done | by apply IH].
    + inversion 1 as [|? y ? ys Hy Hys]; subst.
      apply IH in Hys. cbn. rewrite Hy. cbn. by rewrite Hys.
Qed.

Lemma mapM_result_Throw {A B} (f : A -> result B) l x e :
  x ∈ l → f x = Throw e → ∃ e', mapM f l = Throw e'.
Proof.
  intros Hx Hf. destruct (mapM f l) as [l'|e'] eqn:E; [|eauto].
  apply mapM_result_Ok in E.
  apply list_elem_of_lookup in Hx as [i Hi].
  destruct (Forall2_lookup_l _ _ _ _ _ E Hi) as (y & _ & Hy). congruence.
Qed.

Lemma mapM_result_total {A B} (f : A -> result B) l :
  (∀ x, x ∈ l → ∃ y, f x = Ok y) → ∃ l', mapM f l = Ok l'.
Proof.
  induction l as [|x l IH]; intros H; simpl; [by eexists|].
  destruct (H x) as [y Hy]; [left|].
  destruct IH as [l' Hl']; [intros; apply H; by right|].
  exists (y :: l'). cbn. rewrite Hy. cbn. by rewrite Hl'.
Qed.

Lemma mapM_result_ext {A B} (f g : A -> result B) l :
  (∀ x, f x = g x) → mapM f l = mapM g l.
Proof.
  intros H. induction l as [|x l IH]; [done|].
  change (mapM f (x :: l)) with (y ← f x; k ← mapM f l; mret (y :: k)).
  change (mapM g (x :: l)) with (y ← g x; k ← mapM g l; mret (y :: k)).
  by rewrite H, IH.
Qed.

(** The same for logged runs. *)
Lemma Run_bind_Ok {A B} (m : Run A) (f : A -> Run B) b :
  outcome (m ≫= f) = Ok b ↔ ∃ a, outcome m = Ok a ∧ outcome (f a) = Ok b.
Proof.
  unfold mbind, Run_bind. destruct (outcome m) as [a|e]; simpl; split.
  - eauto.
  - by intros (? & [= <-] & ?).
  - done.
  - by intros (? & ? & ?).
Qed.

Lemma Run_bind_trace {A B} (m : Run A) (f : A -> Run B) a :
  outcome m = Ok a → trace (m ≫= f) = trace m ++ trace (f a).
Proof. unfold mbind, Run_bind. by intros ->. Qed.

Lemma Run_bind_Throw {A B} (m : Run A) (f : A -> Run B) e :
  outcome m = Throw e →
  outcome (m ≫= f) = Throw e ∧ trace (m ≫= f) = trace m.
Proof. unfold mbind, Run_bind. by intros ->. Qed.

Lemma mapM_Run_Ok {A B} (f : A -> Run B) l l' :
  outcome (mapM f l) = Ok l' ↔ Forall2 (fun x y => outcome (f x) = Ok y) l l'.
Proof.
  revert l'. induction l as [|x l IH]; intros l'; simpl.
  - split; [intros [= <-]; constructor | by inversion 1].
  - split.
    + intros (y & Hy & (ys & Hys & [= <-])%Run_bind_Ok)%Run_bind_Ok.
      constructor; [done | by apply IH].
    + inversion 1 as [|? y ? ys Hy Hys]; subst.
      apply IH in Hys. apply Run_bind_Ok. exists y. split; [done|].
      apply Run_bind_Ok. by exists ys.
Qed.

Lemma mapM_Run_total {A B} (f : A -> Run B) l :
  (∀ x, x ∈ l → ∃ y, outcome (f x) = Ok y) → ∃ l', outcome (mapM f l) = Ok l'.
Proof.
  induction l as [|x l IH]; intros H; simpl; [by eexists|].
  destruct (H x) as [y Hy]; [left|].
  destruct IH as [l' Hl']; [intros; apply H; by right|].
  exists (y :: l'). apply Run_bind_Ok. exists y. split; [done|].
  apply Run_bind_Ok. by exists l'.
Qed.

(** [Map.map] keeps the keys and applies the callback to every value. *)
Lemma mapValues_entries {A B} (f : A -> Run B) (m : gmap string A) m' :
  outcome (mapValues f m) = Ok m' →
  ∃ entries,
    m' = list_to_map entries ∧
    Forall2 (fun kv kv' => kv'.1 = kv.1 ∧ outcome (f kv.2) = Ok kv'.2)
            (map_to_list m) entries.
Proof.
  unfold mapValues. intros (entries & Hm & [= <-])%Run_bind_Ok.
  exists entries. split; [done|].
  apply mapM_Run_Ok in Hm. eapply Forall2_impl; [exact Hm|].
  intros [k v] [k' v']; simpl.
  by intros (w & Hw & [= <- <-])%Run_bind_Ok.
Qed.

Lemma Forall2_keys {A B} (P : A -> B -> Prop)
    (l : list (string * A)) (l' : list (string * B)) :
  Forall2 (fun kv kv' => kv'.1 = kv.1 ∧ P kv.2 kv'.2) l l' → l'.*1 = l.*1.
Proof. induction 1 as [|? ? ? ? [? _] _ IH]; simpl; [done|]. by f_equal. Qed.

Lemma mapValues_lookup {A B} (f : A -> Run B) (m : gmap string A) m' k v :
  outcome (mapValues f m) = Ok m' → m !! k = Some v →
  ∃ v', m' !! k = Some v' ∧ outcome (f v) = Ok v'.
Proof.
  intros (entries & -> & H)%mapValues_entries Hk.
  pose proof (Forall2_keys (fun v v' => outcome (f v) = Ok v') _ _ H) as Hkeys.
  apply elem_of_map_to_list, list_elem_of_lookup in Hk as [i Hi].
  destruct (Forall2_lookup_l _ _ _ _ _ H Hi) as ([k' v'] & Hi' & Hk' & Hv').
  simpl in *; subst k'. exists v'. split; [|done].
  apply elem_of_list_to_map.
  - rewrite Hkeys. apply NoDup_fst_map_to_list.
  - apply list_elem_of_lookup. eauto.
Qed.

Lemma mapValues_lookup_inv {A B} (f : A -> Run B) (m : gmap string A) m' k v' :
  outcome (mapValues f m) = Ok m' → m' !! k = Some v' →
  ∃ v, m !! k = Some v ∧ outcome (f v) = Ok v'.
Proof.
  intros (entries & -> & H)%mapValues_entries Hk.
  pose proof (Forall2_keys (fun v v' => outcome (f v) = Ok v') _ _ H) as Hkeys.
  apply elem_of_list_to_map in Hk;
    [|rewrite Hkeys; apply NoDup_fst_map_to_list].
  apply list_elem_of_lookup in Hk as [i Hi].
  destruct (Forall2_lookup_r _ _ _ _ _ H Hi) as ([k' v] & Hi' & Hk' & Hv).
  simpl in *; subst k'. exists v. split; [|done].
  apply elem_of_map_to_list, list_elem_of_lookup. eauto.
Qed.

Lemma mapValues_total {A B} (f : A -> Run B) (m : gmap string A) :
  (∀ k v, m !! k = Some v → ∃ v', outcome (f v) = Ok v') →
  ∃ m', outcome (mapValues f m) = Ok m'.
Proof.
  intros H. unfold mapValues.
  destruct (mapM_Run_total (fun kv => v ← f kv.2; mret (kv.1, v))
              (map_to_list m)) as [entries He].
  - intros [k v] Hkv%elem_of_map_to_list. destruct (H k v Hkv) as [v' Hv'].
    exists (k, v'). apply Run_bind_Ok. by exists v'.
  - eexists. apply Run_bind_Ok. by exists entries.
Qed.

Lemma outcome_cases {A} (r : Run A) :
  (∃ a, outcome r = Ok a) ∨ (∃ e, outcome r = Throw e).
Proof. destruct (outcome r); eauto. Qed.

Lemma mapValues_Throw {A B} (f : A -> Run B) (m : gmap string A) k v e :
  m !! k = Some v → outcome (f v) = Throw e →
  ∃ e', outcome (mapValues f m) = Throw e'.
Proof.
  intros Hk Hf. destruct (outcome_cases (mapValues f m)) as [[m' Hm']|]; [|done].
  destruct (mapValues_lookup _ _ _ _ _ Hm' Hk) as (? & _ & ?). congruence.
Qed.

(** ** The seeding step (lines 35-42) *)

Lemma seedTypeSet_Throw interfaces type :
  outcome (seedTypeSet interfaces type) = Throw seedingError ∧
  trace (seedTypeSet interfaces type) =
    [CreateConnection (nameOf type); CreateInputObject (nameOf type)].
Proof. done. Qed.

Lemma seeding_empty interfaces (common : gmap string GraphQLObjectType) :
  common = ∅ →
  mapValues (seedTypeSet interfaces) common = {| trace := []; outcome := Ok ∅ |}.
Proof. intros ->. unfold mapValues. by rewrite map_to_list_empty. Qed.

Lemma seeding_nonempty interfaces (common : gmap string GraphQLObjectType) :
  common ≠ ∅ →
  ∃ k type, common !! k = Some type ∧
    mapValues (seedTypeSet interfaces) common =
      {| trace := [CreateConnection (nameOf type); CreateInputObject (nameOf type)];
         outcome := Throw seedingError |}.
Proof.
  intros Hne. destruct (map_to_list common) as [|[k type] rest] eqn:E.
  - by apply map_to_list_empty_iff in E.
  - exists k, type. split.
    + apply elem_of_map_to_list. rewrite E. left.
    + unfold mapValues. by rewrite E.
Qed.

(** ** Pass 1 over the metadata (lines 44-52) *)

Lemma createType_Ok tm o :
  createType tm = Ok o ↔ type_name tm ≠ "" ∧ o = objectTypeOf tm.
Proof.
  unfold createType, newGraphQLObjectType. simpl.
  destruct (String.eqb_spec (type_name tm) ""); split.
  - done.
  - by intros [? _].
  - by intros [= <-].
  - by intros [_ ->].
Qed.

Lemma createType_unnamed tm :
  type_name tm = "" → createType tm = Throw (Invariant "Type must be named.").
Proof. unfold createType, newGraphQLObjectType. simpl. by intros ->. Qed.

Lemma createType_named tm :
  type_name tm ≠ "" → createType tm = Ok (objectTypeOf tm).
Proof. intros H. by apply createType_Ok. Qed.

Lemma registerType_named interfaces typeSets tm :
  type_name tm ≠ "" →
  registerType interfaces typeSets tm =
    {| trace := [CreateType (type_name tm); CreateConnection (type_name tm);
                 Registered (type_name tm)];
       outcome := Ok (<[type_name tm := registeredTypeSet interfaces tm]>
                        typeSets) |}.
Proof.
  intros H. unfold registerType. by rewrite (createType_named _ H).
Qed.

Lemma registerType_unnamed interfaces typeSets tm :
  type_name tm = "" →
  registerType interfaces typeSets tm =
    {| trace := [CreateType ""];
       outcome := Throw (Invariant "Type must be named.") |}.
Proof.
  intros H. unfold registerType. rewrite (createType_unnamed _ H), H. done.
Qed.

(** When every type has a name the loop registers them all. *)
Lemma forEach_registerType interfaces md seed :
  "" ∉ type_name <$> md →
  forEach (registerType interfaces) md seed =
    {| trace := pass1Events md; outcome := Ok (registerAll interfaces md seed) |}.
Proof.
  revert seed. induction md as [|tm md IH]; intros seed Hn; [done|].
  apply not_elem_of_cons in Hn as [Hne Hn].
  simpl. rewrite registerType_named by done.
  unfold mbind, Run_bind. simpl. by rewrite IH.
Qed.

(** A type without a name ends the loop with the constructor's error; no
    call of pass 2 has been made by then. *)
Lemma forEach_registerType_unnamed interfaces md seed :
  "" ∈ type_name <$> md →
  outcome (forEach (registerType interfaces) md seed)
    = Throw (Invariant "Type must be named.") ∧
  Forall (fun e => isPass2 e = false)
         (trace (forEach (registerType interfaces) md seed)).
Proof.
  revert seed. induction md as [|tm md IH]; intros seed Hn.
  - by apply elem_of_nil in Hn.
  - simpl. destruct (decide (type_name tm = "")) as [Hname|Hname].
    + rewrite registerType_unnamed by done. unfold mbind, Run_bind. simpl.
      split; [done|]. by repeat constructor.
    + rewrite registerType_named by done. unfold mbind, Run_bind. simpl.
      apply elem_of_cons in Hn as [?|Hn]; [congruence|].
      destruct (IH (<[type_name tm:=registeredTypeSet interfaces tm]> seed) Hn)
        as [Ho Ht].
      split; [done|]. by repeat constructor.
Qed.

Lemma registerAll_cons interfaces tm md seed :
  registerAll interfaces (tm :: md) seed =
    registerAll interfaces md
      (<[type_name tm := registeredTypeSet interfaces tm]> seed).
Proof. done. Qed.

Lemma registerAll_lookup_notin interfaces md seed n :
  n ∉ type_name <$> md → registerAll interfaces md seed !! n = seed !! n.
Proof.
  revert seed. induction md as [|tm md IH]; intros seed Hn; [done|].
  apply not_elem_of_cons in Hn as [Hne Hn].
  rewrite registerAll_cons, IH by done. by rewrite lookup_insert_ne.
Qed.

Lemma registerAll_lookup_NoDup interfaces md seed tm :
  NoDup (type_name <$> md) → tm ∈ md →
  registerAll interfaces md seed !! type_name tm =
    Some (registeredTypeSet interfaces tm).
Proof.
  revert seed. induction md as [|x md IH]; intros seed Hnd Htm.
  - by apply elem_of_nil in Htm.
  - apply NoDup_cons in Hnd as [Hx Hnd]. rewrite registerAll_cons.
    apply elem_of_cons in Htm as [->|Htm].
    + rewrite registerAll_lookup_notin by done. apply lookup_insert_eq.
    + by apply IH.
Qed.

Lemma registerAll_lookup_Some interfaces md seed n ts :
  registerAll interfaces md seed !! n = Some ts →
  seed !! n = Some ts ∨
  ∃ tm, tm ∈ md ∧ type_name tm = n ∧ ts = registeredTypeSet interfaces tm.
Proof.
  revert seed. induction md as [|x md IH]; intros seed H; [by left|].
  rewrite registerAll_cons in H. apply IH in H as [H|(tm & ? & ? & ?)].
  - rewrite lookup_insert in H. case_decide as Hn.
    + right. exists x. split; [left|]. split; congruence.
    + by left.
  - right. exists tm. split; [by right|done].
Qed.

Lemma registerAll_is_Some interfaces md seed n :
  is_Some (registerAll interfaces md seed !! n) ↔
  is_Some (seed !! n) ∨ n ∈ type_name <$> md.
Proof.
  revert seed. induction md as [|x md IH]; intros seed.
  - simpl. rewrite elem_of_nil. tauto.
  - rewrite registerAll_cons, IH, fmap_cons, elem_of_cons, lookup_insert.
    case_decide as Hn; subst.
    + split; [intros _; right; by left | intros _; left; by eexists].
    + clear IH. split; [tauto|]. intros [?|[?|?]]; [by left|congruence|by right].
Qed.

(** Both construction paths of pass 1 attach the connection type. *)
Lemma registerAll_connection interfaces md n ts :
  registerAll interfaces md ∅ !! n = Some ts → is_Some (connection ts).
Proof.
  intros [H|(tm & _ & _ & ->)]%registerAll_lookup_Some; [done|].
  by eexists.
Qed.

(** ** The shape of a run of [createSchema] *)

Lemma buildTypeSets_no_common config md :
  commonTypes config = ∅ → "" ∉ type_name <$> md →
  let typeSets := registerAll createInterfaces md ∅ in
  let pass2 := mapValues (augmentTypeSet createInterfaces typeSets) typeSets in
  buildTypeSets config md =
    {| trace := pass1Events md ++ trace pass2; outcome := outcome pass2 |}.
Proof.
  intros Hc Hn. unfold buildTypeSets. rewrite seeding_empty by done.
  unfold mbind at 1, Run_bind; simpl.
  unfold mbind at 1, Run_bind. rewrite forEach_registerType by done. simpl.
  by destruct (mapValues _ _).
Qed.

Lemma buildTypeSets_unnamed config md :
  commonTypes config = ∅ → "" ∈ type_name <$> md →
  outcome (buildTypeSets config md) = Throw (Invariant "Type must be named.") ∧
  Forall (fun e => isPass2 e = false) (trace (buildTypeSets config md)).
Proof.
  intros Hc Hn. unfold buildTypeSets. rewrite seeding_empty by done.
  unfold mbind at 1, Run_bind; simpl.
  destruct (forEach_registerType_unnamed createInterfaces md ∅ Hn) as [Ho Ht].
  unfold mbind, Run_bind. by rewrite Ho.
Qed.

Lemma buildTypeSets_common config md :
  commonTypes config ≠ ∅ →
  ∃ k type, commonTypes config !! k = Some type ∧
    buildTypeSets config md =
      {| trace := [CreateConnection (nameOf type); CreateInputObject (nameOf type)];
         outcome := Throw seedingError |}.
Proof.
  intros Hc. destruct (seeding_nonempty createInterfaces _ Hc) as (k & t & Hk & E).
  exists k, t. split; [done|]. unfold buildTypeSets. by rewrite E.
Qed.

Lemma createSchema_outcome_Ok config md schema :
  outcome (createSchema config md) = Ok schema →
  ∃ typeSets, outcome (buildTypeSets config md) = Ok typeSets.
Proof. intros (typeSets & H & _)%Run_bind_Ok. eauto. Qed.

Lemma createSchema_total config md typeSets :
  outcome (buildTypeSets config md) = Ok typeSets →
  ∃ schema, outcome (createSchema config md) = Ok schema.
Proof. intros H. eexists. apply Run_bind_Ok. exists typeSets. split; done. Qed.

Lemma createSchema_Throw config md e :
  outcome (buildTypeSets config md) = Throw e →
  outcome (createSchema config md) = Throw e ∧
  trace (createSchema config md) = trace (buildTypeSets config md).
Proof. apply Run_bind_Throw. Qed.

(** C2: for every non-empty [commonTypes], [createSchema] raises in the
    seeding step: after building the connection type of the first common
    type it calls [createInputObject] with one argument, the destructuring of
    the missing second one raises, and nothing else has run by then (no custom
    type is processed).  The seeding step completes normally exactly when
    [commonTypes] is empty. *)
Theorem createSchema_common_types_raise config dbMetadata :
  (commonTypes config ≠ ∅ →
   outcome (createSchema config dbMetadata) = Throw seedingError ∧
   ∃ k type, commonTypes config !! k = Some type ∧
     trace (createSchema config dbMetadata) =
       [CreateConnection (nameOf type); CreateInputObject (nameOf type)]) ∧
  (isOk (outcome (mapValues (seedTypeSet createInterfaces) (commonTypes config)))
     = true ↔ commonTypes config = ∅).
Proof.
  split.
  - intros Hc. destruct (buildTypeSets_common config dbMetadata Hc)
      as (k & t & Hk & E).
    destruct (createSchema_Throw config dbMetadata seedingError) as [Ho Ht];
      [by rewrite E|].
    split; [done|]. exists k, t. split; [done|]. by rewrite Ht, E.
  - split.
    + intros Hok. destruct (decide (commonTypes config = ∅)) as [|Hc]; [done|].
      destruct (seeding_nonempty createInterfaces _ Hc) as (k & t & _ & E).
      by rewrite E in Hok.
    + intros Hc. by rewrite seeding_empty.
Qed.

Lemma createSchema_common_types_raise_witness :
  commonTypes withUser ≠ ∅ ∧
  outcome (createSchema withUser [Author; Book]) = Throw seedingError.
Proof.
  assert (Hne : commonTypes withUser ≠ ∅).
  { intros H. apply (f_equal (fun m => m !! "User")) in H. discriminate H. }
  split; [exact Hne|].
  exact (proj1 (proj1 (createSchema_common_types_raise withUser [Author; Book]) Hne)).
Defined.

(** C1: the seeding step is not pass 1 alone.  With one common type [User]
    and the custom types [Author] and [Book], the run consists of building the
    connection type of [User] and calling [createInputObject] for it, which
    raises: a call of pass 2 is made while no custom type is registered, and
    no schema is built. *)
Theorem seeding_runs_pass2 :
  trace (createSchema withUser [Author; Book]) =
    [CreateConnection "User"; CreateInputObject "User"] ∧
  outcome (createSchema withUser [Author; Book]) = Throw seedingError ∧
  ¬ barrier ["Author"; "Book"] (trace (createSchema withUser [Author; Book])).
Proof.
  assert (Ht : trace (createSchema withUser [Author; Book]) =
               [CreateConnection "User"; CreateInputObject "User"])
    by (vm_compute; reflexivity).
  split; [done|]. split; [vm_compute; reflexivity|].
  rewrite Ht. intros Hb.
  specialize (Hb [CreateConnection "User"] (CreateInputObject "User") []
                 eq_refl eq_refl "Author").
  rewrite elem_of_cons in Hb.
  assert (Registered "Author" ∈ [CreateConnection "User"]) as Hin
    by (apply Hb; by left).
  apply list_elem_of_singleton in Hin. discriminate Hin.
Qed.

(** ** The field compiler *)

Lemma createFieldBranch_branchOf field getTypeSet :
  createFieldBranch field getTypeSet =
    match branchOf field with
    | ConnectionBranch target =>
        typeSet ← property "connection" (getTypeSet target);
        connection ← exposed (connection typeSet);
        Ok (GraphQLObject connection, createConnectionArguments,
            Some (ResolveConnection target (field_reverseName field)))
    | PrimitiveBranch scalar => Ok (scalar, [], None)
    | ReferenceBranch =>
        typeSet ← property "type" (getTypeSet (field_type field));
        Ok (GraphQLObject (type typeSet), [],
            Some (ResolveById (field_type field) (field_name field)))
    end.
Proof.
  unfold createFieldBranch, branchOf.
  destruct (field_target field) as [target|];
    [destruct (String.eqb _ _); [done|]|];
    by destruct (PRIMITIVE_TYPE_MAP !! field_type field).
Qed.

Lemma branchOf_connection field target :
  field_type field = "connection" → field_target field = Some target →
  branchOf field = ConnectionBranch target.
Proof. unfold branchOf. by intros -> ->. Qed.

Lemma PRIMITIVE_TYPE_MAP_scalar kind t :
  PRIMITIVE_TYPE_MAP !! kind = Some t → isScalarType t = true.
Proof.
  intros H. apply elem_of_list_to_map_2 in H.
  repeat (apply elem_of_cons in H as [[= _ ->]|H]; [done|]).
  by apply elem_of_nil in H.
Qed.

Lemma PRIMITIVE_TYPE_MAP_connection : PRIMITIVE_TYPE_MAP !! "connection" = None.
Proof. by vm_compute. Qed.

Lemma branchOf_primitive field scalar :
  branchOf field = PrimitiveBranch scalar →
  PRIMITIVE_TYPE_MAP !! field_type field = Some scalar.
Proof.
  unfold branchOf.
  destruct (field_target field) as [target|];
    [destruct (String.eqb _ _); [done|]|];
    destruct (PRIMITIVE_TYPE_MAP !! field_type field); congruence.
Qed.

Lemma createFieldBranch_not_NonNull field getTypeSet t argDef resolve :
  createFieldBranch field getTypeSet = Ok (t, argDef, resolve) →
  isNonNull t = false.
Proof.
  rewrite createFieldBranch_branchOf.
  destruct (branchOf field) as [target|scalar|] eqn:Hb.
  - by intros (ts & _ & (c & _ & [= <- _ _])%result_bind_Ok)%result_bind_Ok.
  - intros [= <- _ _].
    apply branchOf_primitive, PRIMITIVE_TYPE_MAP_scalar in Hb. by destruct scalar.
  - by intros (ts & _ & [= <- _ _])%result_bind_Ok.
Qed.

Lemma createField_Ok field getTypeSet fd :
  createField field getTypeSet = Ok fd ↔
  ∃ t argDef resolve,
    createFieldBranch field getTypeSet = Ok (t, argDef, resolve) ∧
    fd = {| fd_name := field_name field;
            fd_type := if isRequired field then GraphQLNonNull t else t;
            fd_args := argDef;
            fd_resolve := resolve;
            fd_isDeprecated := default false (field_isDeprecated field) |}.
Proof.
  unfold createField. rewrite result_bind_Ok. split.
  - intros ([[t a] r] & H & [= <-]). by exists t, a, r.
  - intros (t & a & r & H & ->). by exists (t, a, r).
Qed.

(** C7: a compiled field exposes the type its branch determined, wrapped as
    non-null when [isRequired] is true and as it is when [isRequired] is
    false or absent; the branch itself never yields a non-null type, so the
    wrapper is there exactly for the required fields, whichever branch
    applied. *)
Theorem createField_required_wrapping field getTypeSet fd :
  createField field getTypeSet = Ok fd →
  ∃ t argDef resolve,
    createFieldBranch field getTypeSet = Ok (t, argDef, resolve) ∧
    match field_isRequired field with
    | Some true => fd_type fd = GraphQLNonNull t
    | Some false | None => fd_type fd = t ∧ isNonNull (fd_type fd) = false
    end.
Proof.
  intros (t & a & r & Hb & ->)%createField_Ok. exists t, a, r.
  split; [done|]. pose proof (createFieldBranch_not_NonNull _ _ _ _ _ Hb).
  unfold isRequired. by destruct (field_isRequired field) as [[]|].
Qed.

Lemma createField_required_wrapping_witness :
  ∃ fd,
    createField (fieldOf "author" "Author" (Some true) None None)
                (fun name => sampleTypeSets !! name) = Ok fd ∧
    ∃ t argDef resolve,
      createFieldBranch (fieldOf "author" "Author" (Some true) None None)
                        (fun name => sampleTypeSets !! name)
        = Ok (t, argDef, resolve) ∧
      fd_type fd = GraphQLNonNull t.
Proof.
  eexists. split; [vm_compute; reflexivity|].
  apply (createField_required_wrapping
           (fieldOf "author" "Author" (Some true) None None)
           (fun name => sampleTypeSets !! name)).
  vm_compute; reflexivity.
Defined.

Lemma createField_connection_Ok field getTypeSet target typeSet c :
  field_type field = "connection" → field_target field = Some target →
  getTypeSet target = Some typeSet → connection typeSet = Some c →
  createField field getTypeSet =
    Ok {| fd_name := field_name field;
          fd_type := wrapRequired field (GraphQLObject c);
          fd_args := createConnectionArguments;
          fd_resolve := Some (ResolveConnection target (field_reverseName field));
          fd_isDeprecated := default false (field_isDeprecated field) |}.
Proof.
  intros Ht Htarget Hts Hc. apply createField_Ok.
  eexists _, _, _. split; [|done].
  rewrite createFieldBranch_branchOf, (branchOf_connection _ target) by done.
  rewrite Hts. simpl. by rewrite Hc.
Qed.

Lemma branchOf_connection_inv field target :
  branchOf field = ConnectionBranch target →
  field_type field = "connection" ∧ field_target field = Some target.
Proof.
  unfold branchOf. destruct (field_target field) as [target'|].
  - destruct (String.eqb_spec (field_type field) "connection").
    + by intros [= ->].
    + by destruct (PRIMITIVE_TYPE_MAP !! field_type field).
  - by destruct (PRIMITIVE_TYPE_MAP !! field_type field).
Qed.

Lemma sampleTypeSets_Book : sampleTypeSets !! "Book" = Some bookTypeSet.
Proof. vm_compute; reflexivity. Qed.

(** C9, as the code has it: a field of kind "connection" with a target
    compiles, when the target is registered, to a field whose arguments are
    the output of [createConnectionArguments] (four arguments, whatever the
    target) and whose exposed type is the connection type of the target's type
    set, wrapped as non-null when the field is required; a field compiled
    through the primitive or the reference branch has no arguments. *)
Theorem createField_connection_arguments field getTypeSet :
  (∀ target typeSet c,
     field_type field = "connection" → field_target field = Some target →
     getTypeSet target = Some typeSet → connection typeSet = Some c →
     ∃ fd, createField field getTypeSet = Ok fd ∧
       fd_args fd = createConnectionArguments ∧
       fd_type fd = wrapRequired field (GraphQLObject c)) ∧
  length createConnectionArguments = 4 ∧
  (∀ fd,
     ¬ (field_type field = "connection" ∧ is_Some (field_target field)) →
     createField field getTypeSet = Ok fd → fd_args fd = []).
Proof.
  split; [|split; [done|]].
  - intros target ts c Ht Htarget Hts Hc. eexists.
    split; [by eapply createField_connection_Ok|done].
  - intros fd Hn (t & a & r & Hb & ->)%createField_Ok. simpl.
    rewrite createFieldBranch_branchOf in Hb.
    destruct (branchOf field) as [target|scalar|] eqn:E.
    + exfalso. apply Hn. apply branchOf_connection_inv in E as [? ->].
      split; [done|by eexists].
    + by injection Hb as [= _ <- _].
    + by apply result_bind_Ok in Hb as (ts & _ & [= _ <- _]).
Qed.

Lemma createField_connection_arguments_witness :
  ∃ fd,
    createField (fieldOf "books" "connection" None (Some "Book") (Some "authorId"))
                (fun name => sampleTypeSets !! name) = Ok fd ∧
    fd_args fd = createConnectionArguments ∧
    connection bookTypeSet = Some (createConnection bookTypeSet createInterfaces) ∧
    fd_type fd = GraphQLObject (createConnection bookTypeSet createInterfaces).
Proof.
  destruct (proj1 (createField_connection_arguments
              (fieldOf "books" "connection" None (Some "Book") (Some "authorId"))
              (fun name => sampleTypeSets !! name))
              "Book" bookTypeSet (createConnection bookTypeSet createInterfaces)
              eq_refl eq_refl sampleTypeSets_Book eq_refl)
    as (fd & Hfd & Hargs & Htype).
  exists fd. repeat split; assumption.
Defined.

(** C9 as stated fails for a required connection field: the exposed type is
    the non-null wrapper of the connection type, not the connection type. *)
Lemma createField_connection_type_required :
  ¬ (∀ field getTypeSet target typeSet c fd,
       field_type field = "connection" → field_target field = Some target →
       getTypeSet target = Some typeSet → connection typeSet = Some c →
       createField field getTypeSet = Ok fd →
       fd_type fd = GraphQLObject c).
Proof.
  intros H.
  pose proof (createField_connection_Ok
    (fieldOf "books" "connection" (Some true) (Some "Book") (Some "authorId"))
    (fun name => sampleTypeSets !! name) "Book" bookTypeSet
    (createConnection bookTypeSet createInterfaces)
    eq_refl eq_refl sampleTypeSets_Book eq_refl) as Hfd.
  specialize (H
    (fieldOf "books" "connection" (Some true) (Some "Book") (Some "authorId"))
    (fun name => sampleTypeSets !! name) "Book" bookTypeSet
    (createConnection bookTypeSet createInterfaces) _
    eq_refl eq_refl sampleTypeSets_Book eq_refl Hfd).
  discriminate H.
Qed.

(** ** Configuration errors abort the construction *)

Lemma branchOf_reference field :
  field_type field ≠ "connection" ∨ field_target field = None →
  PRIMITIVE_TYPE_MAP !! field_type field = None →
  branchOf field = ReferenceBranch.
Proof.
  intros Hc Hp. unfold branchOf. rewrite Hp.
  destruct (field_target field) as [target|]; [|done].
  destruct (String.eqb_spec (field_type field) "connection"); [|done].
  by destruct Hc.
Qed.

Lemma createField_reference_Throw field getTypeSet :
  branchOf field = ReferenceBranch → getTypeSet (field_type field) = None →
  createField field getTypeSet =
    Throw (TypeError "Cannot read property 'type' of undefined").
Proof.
  intros Hb Hg. unfold createField.
  by rewrite createFieldBranch_branchOf, Hb, Hg.
Qed.

Lemma getFields_Throw typeSets o metadata field e :
  fieldsConfig o = FieldsThunk metadata → field ∈ metadata →
  createField field (fun name => typeSets !! name) = Throw e →
  ∃ e', getFields typeSets o = Throw e'.
Proof.
  intros Ho Hf He. unfold getFields. rewrite Ho.
  destruct (mapM_result_Throw
              (fun field => fd ← createField field (fun name => typeSets !! name);
                            Ok (field_name field, fd)) metadata field e Hf)
    as [e' He']; [by rewrite He|].
  exists e'. by rewrite He'.
Qed.

Lemma augmentTypeSet_Throw interfaces typeSets typeSet e :
  getFields typeSets (type typeSet) = Throw e →
  outcome (augmentTypeSet interfaces typeSets typeSet) = Throw e.
Proof.
  intros H. unfold augmentTypeSet, call, createInputObject.
  unfold mbind at 1, Run_bind. simpl. by rewrite H.
Qed.

(** A registered type one of whose fields does not compile against the
    registry of pass 1 makes the whole construction raise. *)
Lemma createSchema_aborts config md tm field e :
  NoDup (type_name <$> md) → tm ∈ md → field ∈ type_fields tm →
  createField field (fun name => registerAll createInterfaces md ∅ !! name)
    = Throw e →
  ∃ e', outcome (createSchema config md) = Throw e'.
Proof.
  intros Hnd Htm Hf He.
  destruct (decide (commonTypes config = ∅)) as [Hc|Hc];
    [destruct (decide ("" ∈ type_name <$> md)) as [Hn|Hn]|].
  - destruct (buildTypeSets_unnamed config md Hc Hn) as [Ho _].
    eexists. by apply createSchema_Throw.
  - destruct (getFields_Throw (registerAll createInterfaces md ∅)
                (objectTypeOf tm) (type_fields tm) field e eq_refl Hf He)
      as [e' He'].
    destruct (mapValues_Throw
                (augmentTypeSet createInterfaces (registerAll createInterfaces md ∅))
                (registerAll createInterfaces md ∅) (type_name tm)
                (registeredTypeSet createInterfaces tm) e')
      as [e'' He''].
    + by apply registerAll_lookup_NoDup.
    + by apply augmentTypeSet_Throw.
    + exists e''. apply createSchema_Throw.
      by rewrite buildTypeSets_no_common.
  - destruct (buildTypeSets_common config md Hc) as (k & t & _ & E).
    exists seedingError. apply createSchema_Throw. by rewrite E.
Qed.

(** C8: a field whose type string is neither "connection" nor a primitive
    kind nor a key of the registry makes the evaluation of the field map of
    its type raise, and the construction as a whole then raises: no schema is
    returned. *)
Theorem unregistered_type_aborts config dbMetadata tm field :
  NoDup (type_name <$> dbMetadata) →
  tm ∈ dbMetadata → field ∈ type_fields tm →
  field_type field ≠ "connection" →
  PRIMITIVE_TYPE_MAP !! field_type field = None →
  field_type field ∉ dom (commonTypes config) →
  field_type field ∉ type_name <$> dbMetadata →
  (∀ typeSets : gmap string TypeSet,
     typeSets !! field_type field = None →
     ∃ e, getFields typeSets (objectTypeOf tm) = Throw e) ∧
  ∃ e, outcome (createSchema config dbMetadata) = Throw e.
Proof.
  intros Hnd Htm Hf Hconn Hprim _ Hname.
  assert (Hb : branchOf field = ReferenceBranch)
    by (apply branchOf_reference; [by left|done]).
  split.
  - intros typeSets Hts.
    eapply (getFields_Throw typeSets (objectTypeOf tm)); [done..|].
    by apply createField_reference_Throw.
  - eapply createSchema_aborts; [done..|].
    apply createField_reference_Throw; [done|].
    apply eq_None_not_Some. rewrite registerAll_is_Some.
    intros [[? H]|?]; [by rewrite lookup_empty in H|done].
Qed.

Lemma unregistered_type_aborts_witness :
  ("Publisher" ∉ type_name <$> [Review]) ∧
  ∃ e, outcome (createSchema customOnly [Review]) = Throw e.
Proof.
  assert (Hname : "Publisher" ∉ type_name <$> [Review]).
  { intros H. apply list_elem_of_singleton in H. discriminate H. }
  split; [exact Hname|].
  apply (unregistered_type_aborts customOnly [Review] Review
           (fieldOf "publisher" "Publisher" None None None)).
  - apply NoDup_singleton.
  - left.
  - right. left.
  - discriminate.
  - vm_compute; reflexivity.
  - simpl. rewrite dom_empty_L. apply not_elem_of_empty.
  - exact Hname.
Defined.

(** C3, as the code has it.  A field of kind "connection" without a target
    is compiled through the reference branch as a reference to a type named
    "connection"; when the type names are unique and no type has that name,
    the construction raises and no schema is returned.  A missing
    [reverseName] is not looked at during the construction: the field
    compiles whenever its target is registered, and its resolver captures the
    undefined [reverseName]. *)
Theorem connection_without_target_aborts config dbMetadata tm field :
  NoDup (type_name <$> dbMetadata) →
  tm ∈ dbMetadata → field ∈ type_fields tm →
  field_type field = "connection" →
  (field_target field = None → "connection" ∉ type_name <$> dbMetadata →
   ∃ e, outcome (createSchema config dbMetadata) = Throw e) ∧
  (∀ getTypeSet target typeSet c,
     field_target field = Some target → field_reverseName field = None →
     getTypeSet target = Some typeSet → connection typeSet = Some c →
     ∃ fd, createField field getTypeSet = Ok fd ∧
           fd_resolve fd = Some (ResolveConnection target None)).
Proof.
  intros Hnd Htm Hf Hconn. split.
  - intros Htarget Hname.
    eapply createSchema_aborts; [done..|].
    apply createField_reference_Throw.
    + apply branchOf_reference; [by right|].
      rewrite Hconn. apply PRIMITIVE_TYPE_MAP_connection.
    + rewrite Hconn. apply eq_None_not_Some. rewrite registerAll_is_Some.
      intros [[? H]|?]; [by rewrite lookup_empty in H|done].
  - intros getTypeSet target ts c Htarget Hrev Hts Hc. eexists. split.
    + by eapply createField_connection_Ok.
    + simpl. by rewrite Hrev.
Qed.

Lemma connection_without_target_aborts_witness :
  ("connection" ∉ type_name <$> [Shelf; Book; Author]) ∧
  ∃ e, outcome (createSchema customOnly [Shelf; Book; Author]) = Throw e.
Proof.
  assert (Hname : "connection" ∉ type_name <$> [Shelf; Book; Author]).
  { intros H. repeat (apply elem_of_cons in H as [H|H]; [discriminate H|]).
    by apply elem_of_nil in H. }
  split; [exact Hname|].
  apply (proj1 (connection_without_target_aborts customOnly [Shelf; Book; Author]
                  Shelf (fieldOf "books" "connection" None None (Some "shelfId"))
                  ltac:(compute_done)
                  ltac:(left) ltac:(right; left) eq_refl)
           eq_refl Hname).
Defined.

(** C3 as stated fails for a missing [reverseName]: the construction
    succeeds. *)
Lemma missing_reverseName_not_detected :
  ¬ (∀ config dbMetadata tm field,
       tm ∈ dbMetadata → field ∈ type_fields tm →
       field_type field = "connection" →
       field_target field = None ∨ field_reverseName field = None →
       ∃ e, outcome (createSchema config dbMetadata) = Throw e).
Proof.
  intros H.
  destruct (H customOnly [AuthorWithoutReverseName; Book] AuthorWithoutReverseName
              (fieldOf "books" "connection" None (Some "Book") None))
    as [e He].
  - left.
  - right. right. left.
  - reflexivity.
  - by right.
  - vm_compute in He. discriminate He.
Qed.

(** ** Field maps *)

Lemma defineProperty_elem_of {V} k (v : V) o x :
  x ∈ defineProperty k v o → x = (k, v) ∨ x ∈ o.
Proof.
  induction o as [|[k' v'] o IH]; simpl.
  - intros ->%list_elem_of_singleton. by left.
  - destruct (String.eqb k k').
    + intros [->|?]%elem_of_cons; [by left|]. right. by right.
    + intros [->|[->|?]%IH]%elem_of_cons; [right; left|by left|right; by right].
Qed.

Lemma defineProperty_keys {V} k (v : V) o k' :
  k' ∈ (defineProperty k v o).*1 ↔ k' = k ∨ k' ∈ o.*1.
Proof.
  induction o as [|[k'' v''] o IH]; simpl.
  - rewrite list_elem_of_singleton, elem_of_nil. tauto.
  - destruct (String.eqb_spec k k'') as [->|Hne]; simpl.
    + rewrite !elem_of_cons. tauto.
    + rewrite !elem_of_cons, IH. tauto.
Qed.

Lemma defineProperty_NoDup {V} k (v : V) o :
  NoDup o.*1 → NoDup (defineProperty k v o).*1.
Proof.
  induction o as [|[k' v'] o IH]; simpl.
  - intros _. apply NoDup_singleton.
  - intros [Hk Hnd]%NoDup_cons.
    destruct (String.eqb_spec k k') as [->|Hne]; simpl.
    + by apply NoDup_cons.
    + apply NoDup_cons. split; [|by apply IH].
      rewrite defineProperty_keys. intros [?|?]; [congruence|done].
Qed.

Lemma defineProperty_elem_of_same {V} k (v : V) o :
  (k, v) ∈ defineProperty k v o.
Proof.
  induction o as [|[k' v'] o IH]; simpl; [left|].
  destruct (String.eqb k k'); [left|by right].
Qed.

Lemma defineProperty_elem_of_other {V} k (v : V) o k' v' :
  k' ≠ k → (k', v') ∈ o → (k', v') ∈ defineProperty k v o.
Proof.
  intros Hne. induction o as [|[k0 v0] o IH]; simpl.
  - by intros ?%elem_of_nil.
  - destruct (String.eqb_spec k k0) as [->|_].
    + intros [[= ? ?]|?]%elem_of_cons; [congruence|by right].
    + intros [->|?]%elem_of_cons; [left|right; by apply IH].
Qed.

Lemma setProperty_elem_of {V} k (v : V) o x :
  x ∈ setProperty k v o → x = (k, v) ∨ x ∈ o.
Proof.
  unfold setProperty. destruct (String.eqb k "__proto__"); [by right|].
  apply defineProperty_elem_of.
Qed.

Lemma setProperty_keys {V} k (v : V) o k' :
  k' ∈ (setProperty k v o).*1 ↔ (k' = k ∧ k ≠ "__proto__") ∨ k' ∈ o.*1.
Proof.
  unfold setProperty. destruct (String.eqb_spec k "__proto__") as [->|Hne].
  - split; [by right|]. by intros [[_ ?]|?].
  - rewrite defineProperty_keys. split; [|tauto]. intros [->|?]; [by left|by right].
Qed.

Lemma setProperty_NoDup {V} k (v : V) o :
  NoDup o.*1 → NoDup (setProperty k v o).*1.
Proof.
  unfold setProperty. destruct (String.eqb k "__proto__"); [done|].
  apply defineProperty_NoDup.
Qed.

Lemma setProperty_elem_of_same {V} k (v : V) o :
  k ≠ "__proto__" → (k, v) ∈ setProperty k v o.
Proof.
  intros Hne%String.eqb_neq. unfold setProperty. rewrite Hne.
  apply defineProperty_elem_of_same.
Qed.

Lemma setProperty_elem_of_other {V} k (v : V) o k' v' :
  k' ≠ k → (k', v') ∈ o → (k', v') ∈ setProperty k v o.
Proof.
  intros Hne Hin. unfold setProperty.
  destruct (String.eqb k "__proto__"); [done|].
  by apply defineProperty_elem_of_other.
Qed.

Lemma toObject_acc_elem_of {V} (entries acc : list (string * V)) x :
  x ∈ fold_left (fun o kv => setProperty kv.1 kv.2 o) entries acc →
  x ∈ acc ∨ x ∈ entries.
Proof.
  revert acc. induction entries as [|[k v] entries IH]; intros acc; simpl.
  - by left.
  - intros [[->|?]%setProperty_elem_of|?]%IH.
    + right. left.
    + by left.
    + right. by right.
Qed.

Lemma toObject_elem_of {V} (entries : list (string * V)) x :
  x ∈ toObject entries → x ∈ entries.
Proof.
  intros [H|H]%toObject_acc_elem_of; [by apply elem_of_nil in H|done].
Qed.

Lemma toObject_acc_keys {V} (entries acc : list (string * V)) k :
  k ∈ (fold_left (fun o kv => setProperty kv.1 kv.2 o) entries acc).*1 ↔
  k ∈ acc.*1 ∨ (k ∈ entries.*1 ∧ k ≠ "__proto__").
Proof.
  revert acc. induction entries as [|[k' v] entries IH]; intros acc; simpl.
  - rewrite elem_of_nil. tauto.
  - rewrite IH, setProperty_keys, elem_of_cons. split.
    + intros [[[-> ?]|?]|[? ?]]; auto.
    + intros [?|[[->|?] ?]]; auto.
Qed.

(** The keys of the object are the keys assigned, except [__proto__]. *)
Lemma toObject_keys {V} (entries : list (string * V)) k :
  k ∈ (toObject entries).*1 ↔ k ∈ entries.*1 ∧ k ≠ "__proto__".
Proof.
  unfold toObject. rewrite toObject_acc_keys. simpl. rewrite elem_of_nil. tauto.
Qed.

Lemma toObject_keys_NoDup {V} (entries : list (string * V)) :
  NoDup (toObject entries).*1.
Proof.
  unfold toObject. generalize (NoDup_nil_2 (A:=string)).
  change (@nil string) with ((@nil (string * V)).*1).
  generalize (@nil (string * V)).
  induction entries as [|[k v] entries IH]; intros acc Hacc; simpl; [done|].
  apply IH. by apply setProperty_NoDup.
Qed.

Lemma toObject_acc_keeps {V} (entries acc : list (string * V)) k v :
  k ∉ entries.*1 → (k, v) ∈ acc →
  (k, v) ∈ fold_left (fun o kv => setProperty kv.1 kv.2 o) entries acc.
Proof.
  revert acc. induction entries as [|[k' v'] entries IH]; intros acc; simpl.
  - done.
  - intros [Hne Hk]%not_elem_of_cons Hin. apply IH; [done|].
    by apply setProperty_elem_of_other.
Qed.

(** The last value assigned under a key is the one the object holds. *)
Lemma toObject_last {V} (e1 e2 : list (string * V)) k v :
  k ≠ "__proto__" → k ∉ e2.*1 → (k, v) ∈ toObject (e1 ++ (k, v) :: e2).
Proof.
  intros Hp Hk. unfold toObject. rewrite fold_left_app. simpl.
  apply toObject_acc_keeps; [done|]. by apply setProperty_elem_of_same.
Qed.

Lemma NoDup_fst_functional {A} (l : list (string * A)) k v v' :
  NoDup l.*1 → (k, v) ∈ l → (k, v') ∈ l → v = v'.
Proof.
  induction l as [|[k0 v0] l IH]; simpl.
  - by intros _ ?%elem_of_nil.
  - intros [Hk Hnd]%NoDup_cons [[= -> ->]|H1]%elem_of_cons
           [[= <-]|H2]%elem_of_cons.
    + done.
    + destruct Hk. apply list_elem_of_fmap. by exists (k0, v').
    + destruct Hk. apply list_elem_of_fmap. by exists (k, v).
    + by apply IH.
Qed.

Lemma zip_fmap_app_cons {A B} (g : A -> string) (l1 l2 : list A) x (ys : list B) :
  length ys = length (l1 ++ x :: l2) →
  ∃ ys1 y ys2,
    ys = ys1 ++ y :: ys2 ∧ length ys1 = length l1 ∧
    zip (g <$> (l1 ++ x :: l2)) ys =
      zip (g <$> l1) ys1 ++ (g x, y) :: zip (g <$> l2) ys2.
Proof.
  revert ys. induction l1 as [|a l1 IH]; intros [|y ys] Hlen;
    simpl in Hlen; try discriminate.
  - by exists [], y, ys.
  - destruct (IH ys) as (ys1 & y' & ys2 & -> & Hl & Hz); [congruence|].
    exists (y :: ys1), y', ys2. split; [done|]. split; [simpl; congruence|].
    change (zip (g <$> (a :: l1) ++ x :: l2) (y :: ys1 ++ y' :: ys2))
      with ((g a, y) :: zip (g <$> l1 ++ x :: l2) (ys1 ++ y' :: ys2)).
    by rewrite Hz.
Qed.

Lemma getFields_createType typeSets tm fields :
  getFields typeSets (objectTypeOf tm) = Ok fields ↔
  ∃ fds,
    Forall2 (fun field fd =>
               createField field (fun name => typeSets !! name) = Ok fd)
            (type_fields tm) fds ∧
    fields = toObject (zip (field_name <$> type_fields tm) fds).
Proof.
  unfold getFields. simpl. rewrite result_bind_Ok. split.
  - intros (entries & He & [= <-]). apply mapM_result_Ok in He.
    exists (entries.*2). split.
    + clear -He. induction He as [|f [n fd] ? ? Hf]; simpl; constructor; [|done].
      by apply result_bind_Ok in Hf as (? & ? & [= _ <-]).
    + f_equal. clear -He.
      induction He as [|f [n fd] ? ? Hf ? IH]; simpl; [done|].
      apply result_bind_Ok in Hf as (? & ? & [= <- <-]). by f_equal.
  - intros (fds & Hf & ->).
    exists (zip (field_name <$> type_fields tm) fds). split; [|done].
    apply mapM_result_Ok. clear -Hf.
    induction Hf as [|f fd ? ? Hf]; simpl; constructor; [|done].
    by rewrite Hf.
Qed.

Lemma Forall2_zip_elem_of {A B} (P : A -> B -> Prop) (g : A -> string) l l' n y :
  Forall2 P l l' → (n, y) ∈ zip (g <$> l) l' →
  ∃ x, x ∈ l ∧ g x = n ∧ P x y.
Proof.
  induction 1 as [|x y' l l' Hxy _ IH]; simpl.
  - by intros ?%elem_of_nil.
  - intros [[= -> ->]|Hin]%elem_of_cons.
    + exists x. split; [left|done].
    + destruct (IH Hin) as (x' & ? & ? & ?). exists x'. split; [by right|done].
Qed.

Lemma Forall2_zip_elem_of_l {A B} (P : A -> B -> Prop) (g : A -> string) l l' x :
  Forall2 P l l' → x ∈ l → ∃ y, P x y ∧ (g x, y) ∈ zip (g <$> l) l'.
Proof.
  induction 1 as [|x' y' l l' Hxy _ IH]; simpl.
  - by intros ?%elem_of_nil.
  - intros [->|Hin]%elem_of_cons.
    + exists y'. split; [done|left].
    + destruct (IH Hin) as (y & ? & ?). exists y. split; [done|by right].
Qed.

Lemma Forall2_zip_keys {A B} (P : A -> B -> Prop) (g : A -> string) l l' :
  Forall2 P l l' → (zip (g <$> l) l').*1 = g <$> l.
Proof. induction 1; simpl; [done|]. by f_equal. Qed.

(** ** The input object factory *)

Lemma inputFields_elem_of Connection fields n t :
  (n, t) ∈ inputFields Connection fields ↔
  ∃ fd, (n, fd) ∈ fields ∧ keepInputField Connection n fd = true ∧
        t = inputFieldType (fd_type fd).
Proof.
  unfold inputFields. rewrite list_elem_of_fmap. split.
  - intros ([n' fd] & [= -> ->] & [Hk Hin]%list_elem_of_filter). by exists fd.
  - intros (fd & Hin & Hk & ->). exists (n, fd). split; [done|].
    by apply list_elem_of_filter.
Qed.

Lemma inputFields_keys Connection fields n :
  n ∈ (inputFields Connection fields).*1 ↔
  ∃ fd, (n, fd) ∈ fields ∧ keepInputField Connection n fd = true.
Proof.
  rewrite list_elem_of_fmap. split.
  - intros ([n' t] & -> & (fd & ? & ? & _)%inputFields_elem_of). by exists fd.
  - intros (fd & Hin & Hk). exists (n, inputFieldType (fd_type fd)).
    split; [done|]. apply inputFields_elem_of. by exists fd.
Qed.

Lemma createInputObject_Ok typeSets typeSet interfaces name fields :
  createInputObject typeSets typeSet (Some interfaces)
    = Ok (GraphQLInputObjectType name fields) ↔
  ∃ objectFields,
    getFields typeSets (type typeSet) = Ok objectFields ∧
    name = "_" +:+ nameOf (type typeSet) +:+ "InputObject" ∧
    fields = inputFields (Connection interfaces) objectFields.
Proof.
  unfold createInputObject. simpl. rewrite result_bind_Ok. split.
  - intros (objectFields & ? & [= <- <-]). by exists objectFields.
  - intros (objectFields & ? & -> & ->). by exists objectFields.
Qed.

Lemma inputFieldType_string t :
  isInputObjectType (ofTypeOrSelf t) = false →
  isScalarType (ofTypeOrSelf t) = false →
  inputFieldType t =
    match t with
    | GraphQLList _ => GraphQLList GraphQLString
    | GraphQLNonNull _ => GraphQLNonNull GraphQLString
    | _ => GraphQLString
    end.
Proof.
  unfold inputFieldType. destruct t; simpl; try done; by intros -> ->.
Qed.

(** C4, as the code has it: a kept field whose type, after one list or
    non-null wrapper is taken off, is neither a scalar nor an input object
    gets the string type in the derived input object, inside the same wrapper
    the original type had: a list stays a list and a non-null stays a
    non-null. *)
Theorem input_field_degrades_to_string
    typeSets typeSet interfaces objectFields n fd :
  getFields typeSets (type typeSet) = Ok objectFields →
  (n, fd) ∈ objectFields →
  keepInputField (Connection interfaces) n fd = true →
  isInputObjectType (ofTypeOrSelf (fd_type fd)) = false →
  isScalarType (ofTypeOrSelf (fd_type fd)) = false →
  ∃ name fields,
    createInputObject typeSets typeSet (Some interfaces)
      = Ok (GraphQLInputObjectType name fields) ∧
    (n, match fd_type fd with
        | GraphQLList _ => GraphQLList GraphQLString
        | GraphQLNonNull _ => GraphQLNonNull GraphQLString
        | _ => GraphQLString
        end) ∈ fields.
Proof.
  intros Hg Hin Hk Hi Hs. eexists _, _. split.
  - apply createInputObject_Ok. by exists objectFields.
  - apply inputFields_elem_of. exists fd.
    by rewrite inputFieldType_string.
Qed.

Lemma getFields_Book : getFields sampleTypeSets (type bookTypeSet) = Ok bookFields.
Proof. vm_compute; reflexivity. Qed.

Lemma createInputObject_Book :
  createInputObject sampleTypeSets bookTypeSet (Some createInterfaces) =
    Ok (GraphQLInputObjectType "_BookInputObject"
          [("title", GraphQLNonNull GraphQLString);
           ("author", GraphQLNonNull GraphQLString)]).
Proof. vm_compute; reflexivity. Qed.

Lemma input_field_degrades_to_string_witness :
  ∃ name fields,
    createInputObject sampleTypeSets bookTypeSet (Some createInterfaces)
      = Ok (GraphQLInputObjectType name fields) ∧
    ("author", GraphQLNonNull GraphQLString) ∈ fields.
Proof.
  apply (input_field_degrades_to_string sampleTypeSets bookTypeSet
           createInterfaces bookFields "author"
           {| fd_name := "author";
              fd_type := GraphQLNonNull (GraphQLObject (objectTypeOf Author));
              fd_args := [];
              fd_resolve := Some (ResolveById "Author" "author");
              fd_isDeprecated := false |}).
  - exact getFields_Book.
  - right. right. left.
  - reflexivity.
  - reflexivity.
  - reflexivity.
Defined.

(** C4 as stated fails for a required reference field: [Book.author] keeps
    its non-null wrapper around the string type. *)
Lemma input_field_keeps_NonNull :
  ¬ (∀ typeSets typeSet interfaces objectFields n fd name fields,
       getFields typeSets (type typeSet) = Ok objectFields →
       (n, fd) ∈ objectFields →
       keepInputField (Connection interfaces) n fd = true →
       isInputObjectType (ofTypeOrSelf (fd_type fd)) = false →
       isScalarType (ofTypeOrSelf (fd_type fd)) = false →
       createInputObject typeSets typeSet (Some interfaces)
         = Ok (GraphQLInputObjectType name fields) →
       (n, if isList (fd_type fd) then GraphQLList GraphQLString
           else GraphQLString) ∈ fields).
Proof.
  intros H.
  specialize (H sampleTypeSets bookTypeSet createInterfaces bookFields "author"
    {| fd_name := "author";
       fd_type := GraphQLNonNull (GraphQLObject (objectTypeOf Author));
       fd_args := [];
       fd_resolve := Some (ResolveById "Author" "author");
       fd_isDeprecated := false |} _ _
    getFields_Book ltac:(right; right; left) eq_refl eq_refl eq_refl
    createInputObject_Book).
  simpl in H.
  repeat (apply elem_of_cons in H as [H|H]; [discriminate H|]).
  by apply elem_of_nil in H.
Qed.

(** Of several descriptors with one field name, the field map of a type
    built by [createType] holds the field compiled from the last. *)
Lemma getFields_createType_last typeSets tm before field after fields :
  type_fields tm = before ++ field :: after →
  field_name field ∉ field_name <$> after →
  field_name field ≠ "__proto__" →
  getFields typeSets (objectTypeOf tm) = Ok fields →
  NoDup fields.*1 ∧
  ∃ fd, createField field (fun name => typeSets !! name) = Ok fd ∧
        (field_name field, fd) ∈ fields.
Proof.
  intros Hsplit Hlast Hproto (fds & Hf & ->)%getFields_createType.
  split; [apply toObject_keys_NoDup|]. rewrite Hsplit in *.
  destruct (zip_fmap_app_cons field_name before after field fds)
    as (fds1 & fd & fds2 & -> & Hlen & Hz).
  { symmetry. by eapply Forall2_length. }
  apply Forall2_app_inv in Hf as [_ Hf]; [|done].
  apply Forall2_cons in Hf as [Hfd Hf2].
  exists fd. split; [done|]. rewrite Hz. apply toObject_last; [done|].
  by rewrite (Forall2_zip_keys _ field_name _ _ Hf2).
Qed.

(** With field names that are unique, the field map of a type built by
    [createType] has one property per descriptor. *)
Lemma getFields_createType_NoDup typeSets tm fields field :
  NoDup (field_name <$> type_fields tm) →
  field_name field ≠ "__proto__" →
  getFields typeSets (objectTypeOf tm) = Ok fields →
  field ∈ type_fields tm →
  NoDup fields.*1 ∧
  ∃ fd, createField field (fun name => typeSets !! name) = Ok fd ∧
        (field_name field, fd) ∈ fields.
Proof.
  intros Hnd Hproto Hg (before & after & Hsplit)%list_elem_of_split.
  apply (getFields_createType_last typeSets tm before field after);
    [done| |done..].
  rewrite Hsplit, fmap_app, fmap_cons in Hnd.
  apply NoDup_app in Hnd as (_ & _ & Hnd). by apply NoDup_cons in Hnd as [? _].
Qed.





(** ** Pass 2 (lines 54-59) *)

Lemma augmentTypeSet_Ok interfaces typeSets typeSet typeSet' :
  outcome (augmentTypeSet interfaces typeSets typeSet) = Ok typeSet' ↔
  ∃ io m,
    createInputObject typeSets typeSet (Some interfaces) = Ok io ∧
    createMutation typeSet (Some interfaces) = Ok m ∧
    typeSet' = {| type := type typeSet; connection := connection typeSet;
                  inputObject := Some io; mutation := Some m |}.
Proof.
  unfold augmentTypeSet. rewrite Run_bind_Ok. split.
  - intros (io & Hio & (m & Hm & [= <-])%Run_bind_Ok). by exists io, m.
  - intros (io & m & Hio & Hm & ->). exists io. split; [done|].
    apply Run_bind_Ok. by exists m.
Qed.

Lemma pass2_passOne interfaces (typeSets typeSets' : gmap string TypeSet) n :
  outcome (mapValues (augmentTypeSet interfaces typeSets) typeSets)
    = Ok typeSets' →
  passOne <$> typeSets' !! n = passOne <$> typeSets !! n.
Proof.
  intros H. destruct (typeSets !! n) as [ts|] eqn:E.
  - destruct (mapValues_lookup _ _ _ _ _ H E)
      as (ts' & -> & (io & m & _ & _ & ->)%augmentTypeSet_Ok).
    done.
  - destruct (typeSets' !! n) as [ts'|] eqn:E'; [|done].
    destruct (mapValues_lookup_inv _ _ _ _ _ H E') as (ts & ? & _). congruence.
Qed.

Lemma createField_ext field (g1 g2 : string -> option TypeSet) :
  (∀ n, passOne <$> g1 n = passOne <$> g2 n) →
  createField field g1 = createField field g2.
Proof.
  intros H. unfold createField. rewrite !createFieldBranch_branchOf.
  destruct (branchOf field) as [target|scalar|]; [|done|].
  - specialize (H target).
    destruct (g1 target) as [[]|], (g2 target) as [[]|]; simpl in *;
      by simplify_eq.
  - specialize (H (field_type field)).
    destruct (g1 (field_type field)) as [[]|], (g2 (field_type field)) as [[]|];
      simpl in *; by simplify_eq.
Qed.

Lemma getFields_ext (typeSets1 typeSets2 : gmap string TypeSet) o :
  (∀ n, passOne <$> typeSets1 !! n = passOne <$> typeSets2 !! n) →
  getFields typeSets1 o = getFields typeSets2 o.
Proof.
  intros H. unfold getFields. destruct (fieldsConfig o) as [metadata|]; [|done].
  f_equal. apply mapM_result_ext. intros field.
  by rewrite (createField_ext field _ (fun name => typeSets2 !! name)).
Qed.

(** A successful construction started from no common types; its registry is
    the registry of pass 1 with the input objects and the mutation types
    attached. *)
Lemma buildTypeSets_Ok config md typeSets :
  outcome (buildTypeSets config md) = Ok typeSets →
  commonTypes config = ∅ ∧
  outcome (mapValues
             (augmentTypeSet createInterfaces (registerAll createInterfaces md ∅))
             (registerAll createInterfaces md ∅)) = Ok typeSets.
Proof.
  intros H. destruct (decide (commonTypes config = ∅)) as [Hc|Hc].
  - split; [done|]. destruct (decide ("" ∈ type_name <$> md)) as [Hn|Hn].
    + destruct (buildTypeSets_unnamed config md Hc Hn) as [Ho _]. congruence.
    + by rewrite buildTypeSets_no_common in H.
  - destruct (buildTypeSets_common config md Hc) as (k & t & _ & E).
    by rewrite E in H.
Qed.

(** It also had no type without a name. *)
Lemma buildTypeSets_Ok_named config md typeSets :
  outcome (buildTypeSets config md) = Ok typeSets → "" ∉ type_name <$> md.
Proof.
  intros H Hn. destruct (decide (commonTypes config = ∅)) as [Hc|Hc].
  - destruct (buildTypeSets_unnamed config md Hc Hn) as [Ho _]. congruence.
  - destruct (buildTypeSets_common config md Hc) as (k & t & _ & E).
    by rewrite E in H.
Qed.

(** A field that is not of kind "connection" is never filtered out for the
    interface of its type: it exposes a scalar, a type built by [createType]
    (which declares no interface), or a non-null wrapper. *)
Lemma keepInputField_not_connection Connection md field fd n :
  field_type field ≠ "connection" →
  createField field (fun name => registerAll createInterfaces md ∅ !! name)
    = Ok fd →
  keepInputField Connection n fd = negb (String.eqb n "id").
Proof.
  intros Hconn (t & a & r & Hb & ->)%createField_Ok.
  unfold keepInputField. simpl.
  destruct (isRequired field); [by rewrite andb_true_r|].
  rewrite createFieldBranch_branchOf in Hb.
  destruct (branchOf field) as [target|scalar|] eqn:E.
  - by apply branchOf_connection_inv in E as [? _].
  - injection Hb as <- _ _.
    apply branchOf_primitive, PRIMITIVE_TYPE_MAP_scalar in E.
    destruct scalar; try done. by rewrite andb_true_r.
  - apply result_bind_Ok in Hb as (ts & Hts & [= <- _ _]).
    destruct (registerAll createInterfaces md ∅ !! field_type field)
      as [ts'|] eqn:Hreg; [|done].
    injection Hts as ->.
    apply registerAll_lookup_Some in Hreg as [Hreg|(tm & _ & _ & ->)];
      [by rewrite lookup_empty in Hreg|].
    simpl. by rewrite andb_true_r.
Qed.

(** C6: in a schema that was built, the input object derived for a
    descriptor none of whose fields has kind "connection" has the names of
    the object type's fields except "id", and no others. *)
Theorem input_object_omits_only_id config dbMetadata typeSets tm typeSet :
  outcome (buildTypeSets config dbMetadata) = Ok typeSets →
  typeSets !! type_name tm = Some typeSet →
  type typeSet = objectTypeOf tm →
  (∀ field, field ∈ type_fields tm → field_type field ≠ "connection") →
  ∃ objectFields name fields,
    getFields typeSets (type typeSet) = Ok objectFields ∧
    inputObject typeSet = Some (GraphQLInputObjectType name fields) ∧
    ∀ n, n ∈ fields.*1 ↔ n ∈ objectFields.*1 ∧ n ≠ "id".
Proof.
  intros [_ Hbuild]%buildTypeSets_Ok Hlookup Htype Hfields.
  destruct (mapValues_lookup_inv _ _ _ _ _ Hbuild Hlookup)
    as (ts0 & _ & (io & m & Hio & _ & ->)%augmentTypeSet_Ok).
  simpl in Htype. unfold createInputObject in Hio. simpl in Hio.
  apply result_bind_Ok in Hio as (objectFields & Hg & [= <-]).
  rewrite Htype in Hg.
  exists objectFields. eexists _, _. split; [|split; [done|]].
  - simpl. rewrite Htype, <- Hg. apply getFields_ext.
    intros n. by apply pass2_passOne with createInterfaces.
  - intros n. rewrite inputFields_keys, list_elem_of_fmap.
    apply getFields_createType in Hg as (fds & Hf & ->).
    assert (Hkeep : ∀ C fd,
              (n, fd) ∈ toObject (zip (field_name <$> type_fields tm) fds) →
              keepInputField C n fd = negb (String.eqb n "id")).
    { intros C fd Hin%toObject_elem_of.
      destruct (Forall2_zip_elem_of _ field_name _ _ _ _ Hf Hin)
        as (field & Hfield & _ & Hfd).
      eapply keepInputField_not_connection; [|exact Hfd]. by apply Hfields. }
    split.
    + intros (fd & Hin & Hk). rewrite (Hkeep _ fd Hin) in Hk. split.
      * by exists (n, fd).
      * intros ->. discriminate Hk.
    + intros [([n' fd] & -> & Hin) Hne]. exists fd. split; [done|].
      rewrite (Hkeep _ fd Hin). by apply negb_true_iff, String.eqb_neq.
Qed.

Lemma buildTypeSets_sample :
  outcome (buildTypeSets customOnly [Author; Book]) = Ok builtTypeSets.
Proof. vm_compute; reflexivity. Qed.

Lemma input_object_omits_only_id_witness :
  outcome (buildTypeSets customOnly [Author; Book]) = Ok builtTypeSets ∧
  ∃ objectFields name fields,
    getFields builtTypeSets (type (augmented sampleTypeSets bookTypeSet))
      = Ok objectFields ∧
    inputObject (augmented sampleTypeSets bookTypeSet)
      = Some (GraphQLInputObjectType name fields) ∧
    ∀ n, n ∈ fields.*1 ↔ n ∈ objectFields.*1 ∧ n ≠ "id".
Proof.
  split; [exact buildTypeSets_sample|].
  apply (input_object_omits_only_id customOnly [Author; Book] builtTypeSets Book
           (augmented sampleTypeSets bookTypeSet)).
  - exact buildTypeSets_sample.
  - vm_compute; reflexivity.
  - reflexivity.
  - intros field Hin.
    repeat (apply elem_of_cons in Hin as [->|Hin]; [discriminate|]).
    by apply elem_of_nil in Hin.
Defined.

(** ** Successful constructions *)

Lemma wellFormed_resolvable md tm field :
  wellFormed md = true → tm ∈ md → field ∈ type_fields tm →
  resolvable (type_name <$> md) field = true.
Proof.
  intros Hwf Htm%list_elem_of_In Hf%list_elem_of_In.
  unfold wellFormed in Hwf. rewrite forallb_forall in Hwf.
  specialize (Hwf tm Htm). rewrite forallb_forall in Hwf. by apply Hwf.
Qed.

Lemma createField_reference_Ok field getTypeSet typeSet :
  branchOf field = ReferenceBranch →
  getTypeSet (field_type field) = Some typeSet →
  createField field getTypeSet =
    Ok {| fd_name := field_name field;
          fd_type := wrapRequired field (GraphQLObject (type typeSet));
          fd_args := [];
          fd_resolve := Some (ResolveById (field_type field) (field_name field));
          fd_isDeprecated := default false (field_isDeprecated field) |}.
Proof.
  intros Hb Hg. apply createField_Ok. eexists _, _, _. split; [|done].
  by rewrite createFieldBranch_branchOf, Hb, Hg.
Qed.

Lemma createField_resolvable names field getTypeSet :
  resolvable names field = true →
  (∀ n, n ∈ names →
     ∃ typeSet, getTypeSet n = Some typeSet ∧ is_Some (connection typeSet)) →
  ∃ fd, createField field getTypeSet = Ok fd.
Proof.
  unfold resolvable. intros Hr Hg.
  destruct (branchOf field) as [target|scalar|] eqn:E.
  - apply bool_decide_eq_true in Hr.
    destruct (Hg target Hr) as (ts & Hts & [c Hc]).
    apply branchOf_connection_inv in E as [? ?].
    eexists. by eapply createField_connection_Ok.
  - eexists. apply createField_Ok. eexists _, _, _. split; [|done].
    by rewrite createFieldBranch_branchOf, E.
  - apply bool_decide_eq_true in Hr.
    destruct (Hg _ Hr) as (ts & Hts & _).
    eexists. by eapply createField_reference_Ok.
Qed.

Lemma registerAll_registered md n :
  n ∈ type_name <$> md →
  ∃ typeSet, registerAll createInterfaces md ∅ !! n = Some typeSet ∧
             is_Some (connection typeSet).
Proof.
  intros Hn.
  destruct (proj2 (registerAll_is_Some createInterfaces md ∅ n)) as [ts Hts];
    [by right|].
  exists ts. split; [done|]. by eapply registerAll_connection.
Qed.

Lemma getFields_total typeSets tm :
  (∀ field, field ∈ type_fields tm →
     ∃ fd, createField field (fun name => typeSets !! name) = Ok fd) →
  ∃ fields, getFields typeSets (objectTypeOf tm) = Ok fields.
Proof.
  intros H.
  destruct (mapM_result_total
              (fun field =>
                 fd ← createField field (fun name => typeSets !! name);
                 Ok (field_name field, fd)) (type_fields tm)) as [entries He].
  { intros field Hf. destruct (H field Hf) as [fd Hfd].
    exists (field_name field, fd). by rewrite Hfd. }
  exists (toObject entries). unfold getFields.
  change (fieldsConfig (objectTypeOf tm)) with (FieldsThunk (type_fields tm)).
  cbv beta iota. by rewrite He.
Qed.

(** Without common types, well-formed metadata whose types all have a name
    always gives a schema. *)
Lemma buildTypeSets_total config md :
  commonTypes config = ∅ → "" ∉ type_name <$> md → wellFormed md = true →
  ∃ typeSets, outcome (buildTypeSets config md) = Ok typeSets.
Proof.
  intros Hc Hn Hwf. rewrite buildTypeSets_no_common by done. simpl.
  apply mapValues_total. intros k ts Hk.
  apply registerAll_lookup_Some in Hk as [Hk|(tm & Htm & _ & ->)];
    [by rewrite lookup_empty in Hk|].
  destruct (getFields_total (registerAll createInterfaces md ∅) tm)
    as [fields Hfields].
  { intros field Hf.
    apply (createField_resolvable (type_name <$> md)).
    - by eapply wellFormed_resolvable.
    - apply registerAll_registered. }
  eexists. apply augmentTypeSet_Ok. eexists _, _. split; [|split; [|done]].
  - apply createInputObject_Ok. by exists fields.
  - done.
Qed.

Lemma pass2_lookup md typeSets tm :
  outcome (mapValues
             (augmentTypeSet createInterfaces (registerAll createInterfaces md ∅))
             (registerAll createInterfaces md ∅)) = Ok typeSets →
  NoDup (type_name <$> md) → tm ∈ md →
  ∃ typeSet fields,
    typeSets !! type_name tm = Some typeSet ∧ type typeSet = objectTypeOf tm ∧
    getFields (registerAll createInterfaces md ∅) (objectTypeOf tm) = Ok fields ∧
    getFields typeSets (type typeSet) = Ok fields.
Proof.
  intros Hbuild Hnd Htm.
  pose proof (registerAll_lookup_NoDup createInterfaces md ∅ tm Hnd Htm) as Hreg.
  destruct (mapValues_lookup _ _ _ _ _ Hbuild Hreg)
    as (ts & Hts & (io & m & Hio & _ & ->)%augmentTypeSet_Ok).
  unfold createInputObject in Hio. simpl in Hio.
  apply result_bind_Ok in Hio as (fields & Hg & _).
  eexists _, fields. split; [exact Hts|]. split; [done|]. split; [done|].
  simpl. rewrite <- Hg. apply getFields_ext.
  intros n. by apply pass2_passOne with createInterfaces.
Qed.






(** ** The barrier between the passes *)

Lemma trace_bind_Forall {A B} (P : Event -> Prop) (m : Run A) (f : A -> Run B) :
  Forall P (trace m) → (∀ a, Forall P (trace (f a))) →
  Forall P (trace (m ≫= f)).
Proof.
  intros Hm Hf. unfold mbind, Run_bind.
  destruct (outcome m); simpl; [|done]. apply Forall_app. split; [done|apply Hf].
Qed.

Lemma trace_mapM_Forall {A B} (P : Event -> Prop) (f : A -> Run B) l :
  (∀ x, Forall P (trace (f x))) → Forall P (trace (mapM f l)).
Proof.
  intros Hf. induction l as [|x l IH]; [by constructor|].
  change (mapM f (x :: l)) with (y ← f x; k ← mapM f l; mret (y :: k)).
  apply trace_bind_Forall; [done|]. intros y.
  apply trace_bind_Forall; [done|]. intros k. constructor.
Qed.

Lemma trace_pass2 interfaces (typeSets : gmap string TypeSet) :
  Forall (fun e => isPass2 e = true)
    (trace (mapValues (augmentTypeSet interfaces typeSets) typeSets)).
Proof.
  unfold mapValues. apply trace_bind_Forall; [|intros; constructor].
  apply trace_mapM_Forall. intros [k ts].
  apply trace_bind_Forall; [|intros; constructor].
  unfold augmentTypeSet.
  apply trace_bind_Forall; [by repeat constructor|]. intros io.
  apply trace_bind_Forall; [by repeat constructor|]. intros m. constructor.
Qed.

Lemma pass1Events_pass1 md :
  Forall (fun e => isPass2 e = false) (pass1Events md).
Proof. induction md; simpl; repeat constructor. done. Qed.

Lemma pass1Events_Registered md n :
  n ∈ type_name <$> md → Registered n ∈ pass1Events md.
Proof.
  induction md as [|tm md IH]; simpl.
  - by intros ?%elem_of_nil.
  - intros [->|H]%elem_of_cons.
    + right. right. left.
    + right. right. right. by apply IH.
Qed.

Lemma createSchema_trace config md :
  trace (createSchema config md) = trace (buildTypeSets config md).
Proof.
  unfold createSchema, mbind, Run_bind.
  destruct (outcome (buildTypeSets config md)); simpl; [|done].
  by rewrite app_nil_r.
Qed.

(** X18: without common types the two passes are separated: in every run,
    successful or not, every call of pass 2 comes after the registration of
    every custom type. *)
Lemma barrier_without_common_types config md :
  commonTypes config = ∅ →
  barrier (type_name <$> md) (trace (createSchema config md)).
Proof.
  intros Hc t1 e t2 Ht He n Hn. rewrite createSchema_trace in Ht.
  destruct (decide ("" ∈ type_name <$> md)) as [Hnamed|Hnamed].
  { destruct (buildTypeSets_unnamed config md Hc Hnamed) as [_ Hp].
    rewrite Ht in Hp. apply Forall_app in Hp as [_ Hp].
    apply Forall_cons in Hp as [Hp _]. congruence. }
  rewrite buildTypeSets_no_common in Ht by done.
  simpl in Ht. apply pass1Events_Registered in Hn.
  apply app_eq_app in Ht as [l [[H1 H2]|[H1 H2]]].
  - destruct l as [|e' l].
    + rewrite app_nil_r in H1. by rewrite <- H1.
    + simpl in H2. injection H2 as <- _.
      pose proof (pass1Events_pass1 md) as Hp. rewrite H1 in Hp.
      apply Forall_app in Hp as [_ Hp]. apply Forall_cons in Hp as [Hp _].
      congruence.
  - rewrite H1. apply elem_of_app. by left.
Qed.

(** * Further properties of the code *)

(** ** [createField]: when it raises, and what it wires *)

Lemma isOk_true {A} (r : result A) : isOk r = true ↔ ∃ a, r = Ok a.
Proof.
  destruct r as [a|e]; simpl; split.
  - by exists a.
  - done.
  - done.
  - by intros [? ?].
Qed.

Lemma branchOf_primitive_lookup field scalar :
  PRIMITIVE_TYPE_MAP !! field_type field = Some scalar →
  branchOf field = PrimitiveBranch scalar.
Proof.
  intros Hp. unfold branchOf. rewrite Hp.
  destruct (field_target field) as [target|]; [|done].
  destruct (String.eqb_spec (field_type field) "connection") as [E|]; [|done].
  rewrite E, PRIMITIVE_TYPE_MAP_connection in Hp. discriminate Hp.
Qed.

(** X1: against a registry whose entries all carry a connection type (as
    every registry entry does after pass 1), [createField] returns a field
    exactly when the registry key it looks up is present: the target for a
    connection field, the type string for a reference field; a primitive
    field looks nothing up and always compiles. *)
Theorem createField_Ok_iff field (getTypeSet : string -> option TypeSet) :
  (∀ n typeSet, getTypeSet n = Some typeSet → is_Some (connection typeSet)) →
  isOk (createField field getTypeSet) = true ↔
  ∀ n, referencedName field = Some n → is_Some (getTypeSet n).
Proof.
  intros Hconn. rewrite isOk_true. unfold referencedName. split.
  - intros (fd & (t & a & r & Hb & _)%createField_Ok) n Hn.
    rewrite createFieldBranch_branchOf in Hb.
    destruct (branchOf field) as [target|scalar|]; [|done|].
    + injection Hn as <-. destruct (getTypeSet target); [by eexists|done].
    + injection Hn as <-.
      destruct (getTypeSet (field_type field)); [by eexists|done].
  - intros Hn. destruct (branchOf field) as [target|scalar|] eqn:E.
    + destruct (Hn target eq_refl) as [ts Hts].
      destruct (Hconn _ _ Hts) as [c Hc].
      apply branchOf_connection_inv in E as [? ?].
      eexists. by eapply createField_connection_Ok.
    + eexists. apply createField_Ok. eexists _, _, _. split; [|done].
      by rewrite createFieldBranch_branchOf, E.
    + destruct (Hn _ eq_refl) as [ts Hts].
      eexists. by eapply createField_reference_Ok.
Qed.

Lemma sampleTypeSets_connection n typeSet :
  sampleTypeSets !! n = Some typeSet → is_Some (connection typeSet).
Proof. apply registerAll_connection. Qed.

Lemma createField_Ok_iff_witness :
  isOk (createField (fieldOf "publisher" "Publisher" None None None)
                    (fun name => sampleTypeSets !! name)) = true ↔
  ∀ n, referencedName (fieldOf "publisher" "Publisher" None None None) = Some n →
       is_Some (sampleTypeSets !! n).
Proof.
  apply (createField_Ok_iff (fieldOf "publisher" "Publisher" None None None)
           (fun name => sampleTypeSets !! name)).
  exact sampleTypeSets_connection.
Defined.

(** X2: a type string that is a primitive kind always compiles to the mapped
    scalar, with no arguments and no resolver, whatever the registry holds
    and whatever [target] says: a registered type named like a primitive kind
    is never reached. *)
Theorem createField_primitive_shadows field getTypeSet scalar :
  PRIMITIVE_TYPE_MAP !! field_type field = Some scalar →
  createField field getTypeSet =
    Ok {| fd_name := field_name field;
          fd_type := wrapRequired field scalar;
          fd_args := [];
          fd_resolve := None;
          fd_isDeprecated := default false (field_isDeprecated field) |}.
Proof.
  intros Hp. apply createField_Ok. eexists _, _, _. split; [|done].
  by rewrite createFieldBranch_branchOf, (branchOf_primitive_lookup _ scalar).
Qed.

Lemma createField_primitive_shadows_witness :
  is_Some (shadowedTypeSets !! "string") ∧
  createField (fieldOf "label" "string" None (Some "Book") None)
              (fun name => shadowedTypeSets !! name) =
    Ok {| fd_name := "label"; fd_type := GraphQLString; fd_args := [];
          fd_resolve := None; fd_isDeprecated := false |}.
Proof.
  split; [by vm_compute; eexists|].
  apply (createField_primitive_shadows
           (fieldOf "label" "string" None (Some "Book") None)
           (fun name => shadowedTypeSets !! name) GraphQLString).
  vm_compute; reflexivity.
Defined.

(** ** Field maps of the types built by [createType] *)

Lemma createField_isOk_Forall2 (typeSets : gmap string TypeSet)
    (fields : list FieldMetadata) fds :
  Forall2 (fun field fd =>
             createField field (fun name => typeSets !! name) = Ok fd)
          fields fds →
  ∀ field, field ∈ fields →
    isOk (createField field (fun name => typeSets !! name)) = true.
Proof.
  intros Hf field [i Hi]%list_elem_of_lookup.
  destruct (Forall2_lookup_l _ _ _ _ _ Hf Hi) as (fd & _ & ->). done.
Qed.

(** X4: forcing the field thunk of a type built by [createType] succeeds
    exactly when every one of its descriptors compiles, those hidden by a
    later field of the same name included. *)
Theorem getFields_Ok_iff typeSets tm :
  isOk (getFields typeSets (objectTypeOf tm)) = true ↔
  ∀ field, field ∈ type_fields tm →
    isOk (createField field (fun name => typeSets !! name)) = true.
Proof.
  rewrite isOk_true. split.
  - intros (fields & (fds & Hf & _)%getFields_createType).
    by eapply createField_isOk_Forall2.
  - intros H. apply getFields_total. intros field Hf.
    by apply isOk_true, H.
Qed.

(** X5: the field map of a type built by [createType] has one property per
    field name: its keys are distinct and are exactly the names of the
    descriptors other than "__proto__", for which the assignment creates no
    property. *)
Theorem getFields_keys typeSets tm fields :
  getFields typeSets (objectTypeOf tm) = Ok fields →
  NoDup fields.*1 ∧
  ∀ n, n ∈ fields.*1 ↔
       n ∈ field_name <$> type_fields tm ∧ n ≠ "__proto__".
Proof.
  intros (fds & Hf & ->)%getFields_createType. split.
  - apply toObject_keys_NoDup.
  - intros n. by rewrite toObject_keys, (Forall2_zip_keys _ field_name _ _ Hf).
Qed.

Lemma getFields_Pamphlet :
  getFields sampleTypeSets (objectTypeOf Pamphlet) =
    Ok [("id", {| fd_name := "id"; fd_type := GraphQLNonNull GraphQLID;
                  fd_args := []; fd_resolve := None; fd_isDeprecated := false |});
        ("title", {| fd_name := "title";
                     fd_type := GraphQLNonNull GraphQLString;
                     fd_args := []; fd_resolve := None;
                     fd_isDeprecated := false |})].
Proof. vm_compute; reflexivity. Qed.

Lemma getFields_keys_witness :
  NoDup ["id"; "title"] ∧
  ∀ n, n ∈ ["id"; "title"] ↔
       n ∈ field_name <$> type_fields Pamphlet ∧ n ≠ "__proto__".
Proof.
  exact (getFields_keys sampleTypeSets Pamphlet _ getFields_Pamphlet).
Defined.

(** X6: when several descriptors of a type carry the same field name, other
    than "__proto__", the field map holds, under that name, the field
    compiled from the last of them. *)
Theorem getFields_last_wins typeSets tm before field after fields :
  type_fields tm = before ++ field :: after →
  field_name field ∉ field_name <$> after →
  field_name field ≠ "__proto__" →
  getFields typeSets (objectTypeOf tm) = Ok fields →
  ∃ fd, createField field (fun name => typeSets !! name) = Ok fd ∧
        (field_name field, fd) ∈ fields ∧
        ∀ fd', (field_name field, fd') ∈ fields → fd' = fd.
Proof.
  intros Hsplit Hlast Hproto Hg.
  destruct (getFields_createType_last _ _ _ _ _ _ Hsplit Hlast Hproto Hg)
    as (Hnd & fd & Hfd & Hin).
  exists fd. split; [done|]. split; [done|]. intros fd' Hin'.
  by eapply NoDup_fst_functional.
Qed.

Lemma getFields_last_wins_witness :
  ∃ fd,
    createField (fieldOf "title" "string" (Some true) None None)
                (fun name => sampleTypeSets !! name) = Ok fd ∧
    fd_type fd = GraphQLNonNull GraphQLString ∧
    ∀ fd', ("title", fd') ∈
             [("id", {| fd_name := "id"; fd_type := GraphQLNonNull GraphQLID;
                        fd_args := []; fd_resolve := None;
                        fd_isDeprecated := false |});
              ("title", {| fd_name := "title";
                           fd_type := GraphQLNonNull GraphQLString;
                           fd_args := []; fd_resolve := None;
                           fd_isDeprecated := false |})] → fd' = fd.
Proof.
  destruct (getFields_last_wins sampleTypeSets Pamphlet
              [fieldOf "id" "id" (Some true) None None;
               fieldOf "title" "integer" None None None]
              (fieldOf "title" "string" (Some true) None None) [] _
              eq_refl (not_elem_of_nil _) ltac:(discriminate)
              getFields_Pamphlet)
    as (fd & Hfd & _ & Huniq).
  exists fd. split; [exact Hfd|]. split; [|exact Huniq].
  vm_compute in Hfd. by injection Hfd as <-.
Defined.

(** ** Input objects *)

Lemma inputFieldType_cases t :
  inputFieldType t =
    (if inputCompatible t then t
     else match t with
          | GraphQLList _ => GraphQLList GraphQLString
          | GraphQLNonNull _ => GraphQLNonNull GraphQLString
          | _ => GraphQLString
          end).
Proof.
  unfold inputFieldType, inputCompatible.
  destruct t as [| | |t'|t']; simpl; try done;
    by destruct (isInputObjectType t' || isScalarType t').
Qed.

Lemma inputFieldType_compatible t : inputCompatible (inputFieldType t) = true.
Proof.
  rewrite inputFieldType_cases. destruct (inputCompatible t) eqn:E; [done|].
  by destruct t.
Qed.

(** X7: the type an input field gets is always acceptable to line 175 (a
    scalar or an input object under at most one wrapper); a type that already
    is acceptable is kept as it is; so applying the transformation twice
    changes nothing more. *)
Theorem inputFieldType_idempotent t :
  inputCompatible (inputFieldType t) = true ∧
  inputFieldType t =
    (if inputCompatible t then t
     else match t with
          | GraphQLList _ => GraphQLList GraphQLString
          | GraphQLNonNull _ => GraphQLNonNull GraphQLString
          | _ => GraphQLString
          end) ∧
  inputFieldType (inputFieldType t) = inputFieldType t.
Proof.
  pose proof (inputFieldType_cases t) as H1.
  pose proof (inputFieldType_compatible t) as H2.
  split; [done|]. split; [done|].
  unfold inputFieldType at 1. unfold inputCompatible in H2.
  destruct (inputFieldType t) as [| | |t'|t']; simpl in *; try done;
    by rewrite H2.
Qed.

Lemma inputFieldType_two_wrappers t :
  isWrapper t = true →
  inputFieldType (GraphQLList t) = GraphQLList GraphQLString ∧
  inputFieldType (GraphQLNonNull t) = GraphQLNonNull GraphQLString.
Proof. by destruct t. Qed.

(** X8: only one wrapper is looked through.  A field, not named "id", whose
    type has two wrappers is kept in the input object with the outer wrapper
    around the string type, whatever is inside: a non-null list of strings
    becomes a non-null string. *)
Theorem input_object_two_wrappers
    typeSets typeSet interfaces objectFields n fd t :
  getFields typeSets (type typeSet) = Ok objectFields →
  (n, fd) ∈ objectFields → n ≠ "id" →
  isWrapper t = true →
  fd_type fd = GraphQLList t ∨ fd_type fd = GraphQLNonNull t →
  ∃ name fields,
    createInputObject typeSets typeSet (Some interfaces)
      = Ok (GraphQLInputObjectType name fields) ∧
    (n, match fd_type fd with
        | GraphQLList _ => GraphQLList GraphQLString
        | _ => GraphQLNonNull GraphQLString
        end) ∈ fields.
Proof.
  intros Hg Hin Hid Hw Hty. eexists _, _. split.
  - apply createInputObject_Ok. by exists objectFields.
  - apply inputFields_elem_of. exists fd. split; [done|].
    destruct (inputFieldType_two_wrappers t Hw) as [Hl Hn].
    apply String.eqb_neq in Hid. unfold keepInputField. rewrite Hid.
    by destruct Hty as [-> | ->].
Qed.

Lemma input_object_two_wrappers_witness :
  ∃ name fields,
    createInputObject ∅ postTypeSet (Some createInterfaces)
      = Ok (GraphQLInputObjectType name fields) ∧
    ("tags", GraphQLNonNull GraphQLString) ∈ fields.
Proof.
  apply (input_object_two_wrappers ∅ postTypeSet createInterfaces
           [("id", {| fd_name := "id"; fd_type := GraphQLID; fd_args := [];
                      fd_resolve := None; fd_isDeprecated := false |});
            ("tags", {| fd_name := "tags";
                        fd_type := GraphQLNonNull (GraphQLList GraphQLString);
                        fd_args := []; fd_resolve := None;
                        fd_isDeprecated := false |})]
           "tags"
           {| fd_name := "tags";
              fd_type := GraphQLNonNull (GraphQLList GraphQLString);
              fd_args := []; fd_resolve := None; fd_isDeprecated := false |}
           (GraphQLList GraphQLString)).
  - reflexivity.
  - right. left.
  - discriminate.
  - reflexivity.
  - by right.
Defined.

(** X9: whatever object type it is derived from, an input object is named
    after it, never has a field named "id", has no field that the object
    type does not have, and every field type in it is acceptable to line 175:
    no object type, and so no connection type, is left in it under fewer than
    two wrappers. *)
Theorem createInputObject_invariants typeSets typeSet interfaces io :
  createInputObject typeSets typeSet (Some interfaces) = Ok io →
  ∃ objectFields fields,
    getFields typeSets (type typeSet) = Ok objectFields ∧
    io = GraphQLInputObjectType
           ("_" +:+ nameOf (type typeSet) +:+ "InputObject") fields ∧
    ("id" ∉ fields.*1) ∧
    (∀ n, n ∈ fields.*1 → n ∈ objectFields.*1) ∧
    (∀ n t, (n, t) ∈ fields → inputCompatible t = true).
Proof.
  unfold createInputObject. simpl.
  intros (objectFields & Hg & [= <-])%result_bind_Ok.
  exists objectFields, (inputFields (Connection interfaces) objectFields).
  split; [done|]. split; [done|]. split; [|split].
  - intros (fd & _ & Hk)%inputFields_keys.
    unfold keepInputField in Hk. done.
  - intros n (fd & Hin & _)%inputFields_keys.
    apply list_elem_of_fmap. by exists (n, fd).
  - intros n t (fd & _ & _ & ->)%inputFields_elem_of.
    apply inputFieldType_compatible.
Qed.

Lemma createInputObject_invariants_witness :
  ∃ objectFields fields,
    getFields sampleTypeSets (type bookTypeSet) = Ok objectFields ∧
    GraphQLInputObjectType "_BookInputObject"
      [("title", GraphQLNonNull GraphQLString);
       ("author", GraphQLNonNull GraphQLString)]
      = GraphQLInputObjectType
          ("_" +:+ nameOf (type bookTypeSet) +:+ "InputObject") fields ∧
    ("id" ∉ fields.*1) ∧
    (∀ n, n ∈ fields.*1 → n ∈ objectFields.*1) ∧
    (∀ n t, (n, t) ∈ fields → inputCompatible t = true).
Proof.
  exact (createInputObject_invariants sampleTypeSets bookTypeSet
           createInterfaces _ createInputObject_Book).
Defined.

(** ** The registry that [createSchema] builds *)

Lemma registerAll_app interfaces md1 md2 seed :
  registerAll interfaces (md1 ++ md2) seed =
    registerAll interfaces md2 (registerAll interfaces md1 seed).
Proof. unfold registerAll. apply fold_left_app. Qed.

Lemma registerAll_lookup_seed interfaces md seed seed' n :
  n ∈ type_name <$> md →
  registerAll interfaces md seed !! n = registerAll interfaces md seed' !! n.
Proof.
  revert seed seed'. induction md as [|tm md IH]; intros seed seed' Hn.
  - by apply elem_of_nil in Hn.
  - rewrite !registerAll_cons.
    destruct (decide (n ∈ type_name <$> md)) as [Hin|Hnotin]; [by apply IH|].
    rewrite !registerAll_lookup_notin by done.
    apply elem_of_cons in Hn as [->|?]; [|done].
    by rewrite !lookup_insert_eq.
Qed.

Lemma sameUpToException_refl {A} (r : result A) : sameUpToException r r.
Proof. by destruct r. Qed.

Lemma registerAll_names interfaces md md' n :
  registerAll interfaces md ∅ = registerAll interfaces md' ∅ →
  n ∈ type_name <$> md → n ∈ type_name <$> md'.
Proof.
  intros Hreg Hn.
  assert (is_Some (registerAll interfaces md' ∅ !! n)) as Hs.
  { rewrite <- Hreg. apply registerAll_is_Some. by right. }
  apply registerAll_is_Some in Hs as [[? Hs]|Hs]; [|done].
  by rewrite lookup_empty in Hs.
Qed.

Lemma buildTypeSets_outcome_registry config md md' :
  registerAll createInterfaces md ∅ = registerAll createInterfaces md' ∅ →
  sameUpToException (outcome (buildTypeSets config md))
                    (outcome (buildTypeSets config md')).
Proof.
  intros Hreg. destruct (decide (commonTypes config = ∅)) as [Hc|Hc].
  - destruct (decide ("" ∈ type_name <$> md)) as [Hn|Hn].
    + pose proof (registerAll_names _ _ _ _ Hreg Hn) as Hn'.
      destruct (buildTypeSets_unnamed config md Hc Hn) as [-> _].
      by destruct (buildTypeSets_unnamed config md' Hc Hn') as [-> _].
    + assert ("" ∉ type_name <$> md') as Hn'.
      { intros Hn'. apply Hn. by eapply registerAll_names. }
      rewrite !buildTypeSets_no_common by done. simpl. rewrite Hreg.
      apply sameUpToException_refl.
  - destruct (buildTypeSets_common config md Hc) as (? & ? & _ & ->).
    by destruct (buildTypeSets_common config md' Hc) as (? & ? & _ & ->).
Qed.

Lemma createMutation_type typeSet typeSet' interfaces :
  type typeSet = type typeSet' →
  createMutation typeSet interfaces = createMutation typeSet' interfaces.
Proof. unfold createMutation. by intros ->. Qed.

(** X11: the registry of a construction that succeeded.  Its keys are
    exactly the type names of the metadata, and the type set under a name
    holds the object type built from a descriptor of that name, the
    connection type built for it, and the input object and mutation type that
    [createInputObject] and [createMutation] yield for it against the
    finished registry. *)
Theorem buildTypeSets_registry config dbMetadata typeSets :
  outcome (buildTypeSets config dbMetadata) = Ok typeSets →
  (∀ n, is_Some (typeSets !! n) ↔ n ∈ type_name <$> dbMetadata) ∧
  ∀ n typeSet, typeSets !! n = Some typeSet →
    ∃ tm io m,
      tm ∈ dbMetadata ∧ type_name tm = n ∧
      createInputObject typeSets typeSet (Some createInterfaces) = Ok io ∧
      createMutation typeSet (Some createInterfaces) = Ok m ∧
      typeSet =
        {| type := objectTypeOf tm;
           connection :=
             Some (createConnection
                     {| type := objectTypeOf tm; connection := None;
                        inputObject := None; mutation := None |}
                     createInterfaces);
           inputObject := Some io;
           mutation := Some m |}.
Proof.
  intros [_ Hbuild]%buildTypeSets_Ok. split.
  - intros n. rewrite <- !fmap_is_Some with (f := passOne).
    rewrite (pass2_passOne _ _ _ n Hbuild), fmap_is_Some, registerAll_is_Some.
    split; [intros [[? H]|?]; [by rewrite lookup_empty in H|done]|by right].
  - intros n ts Hts.
    destruct (mapValues_lookup_inv _ _ _ _ _ Hbuild Hts)
      as (ts0 & Hreg & (io & m & Hio & Hm & ->)%augmentTypeSet_Ok).
    apply registerAll_lookup_Some in Hreg as [Hreg|(tm & Htm & Hn & ->)];
      [by rewrite lookup_empty in Hreg|].
    exists tm, io, m. split; [done|]. split; [done|]. split; [|split; [|done]].
    + rewrite <- Hio. unfold createInputObject. simpl. f_equal.
      apply getFields_ext. intros k. by apply pass2_passOne with createInterfaces.
    + by rewrite <- Hm.
Qed.

Lemma buildTypeSets_registry_witness :
  (∀ n, is_Some (builtTypeSets !! n) ↔ n ∈ type_name <$> [Author; Book]) ∧
  ∀ n typeSet, builtTypeSets !! n = Some typeSet →
    ∃ tm io m,
      tm ∈ [Author; Book] ∧ type_name tm = n ∧
      createInputObject builtTypeSets typeSet (Some createInterfaces) = Ok io ∧
      createMutation typeSet (Some createInterfaces) = Ok m ∧
      typeSet =
        {| type := objectTypeOf tm;
           connection :=
             Some (createConnection
                     {| type := objectTypeOf tm; connection := None;
                        inputObject := None; mutation := None |}
                     createInterfaces);
           inputObject := Some io;
           mutation := Some m |}.
Proof.
  exact (buildTypeSets_registry customOnly [Author; Book] builtTypeSets
           buildTypeSets_sample).
Defined.

(** X12: a descriptor that is followed by another one of the same name has
    no effect on whether the construction succeeds, nor on the registry it
    yields: the later one replaces it in the registry before any field thunk
    is forced, so not even an unresolved reference in it is noticed.  (When
    the construction fails, which exception is raised is left open.) *)
Theorem shadowed_descriptor_ignored config before tm after :
  type_name tm ∈ type_name <$> after →
  sameUpToException
    (outcome (buildTypeSets config (before ++ tm :: after)))
    (outcome (buildTypeSets config (before ++ after))).
Proof.
  intros Hin. apply buildTypeSets_outcome_registry.
  rewrite !registerAll_app, registerAll_cons. apply map_eq. intros n.
  destruct (decide (n ∈ type_name <$> after)) as [Hn|Hn].
  - by apply registerAll_lookup_seed.
  - rewrite !registerAll_lookup_notin by done.
    apply lookup_insert_ne. intros Heq. apply Hn. by rewrite <- Heq.
Qed.

Lemma shadowed_descriptor_ignored_witness :
  sameUpToException
    (outcome (buildTypeSets customOnly ([Author] ++ OldBook :: [Book])))
    (outcome (buildTypeSets customOnly ([Author] ++ [Book]))) ∧
  isOk (outcome (buildTypeSets customOnly [Author; OldBook; Book])) = true ∧
  isOk (outcome (buildTypeSets customOnly [Author; OldBook])) = false.
Proof.
  split; [|split; vm_compute; reflexivity].
  apply (shadowed_descriptor_ignored customOnly [Author] OldBook [Book]).
  left.
Defined.

Lemma registerAll_Permutation interfaces md md' :
  md ≡ₚ md' → NoDup (type_name <$> md) →
  registerAll interfaces md ∅ = registerAll interfaces md' ∅.
Proof.
  intros Hp Hnd. assert (Hnd' : NoDup (type_name <$> md')) by by rewrite <- Hp.
  apply map_eq. intros n.
  destruct (decide (n ∈ type_name <$> md)) as [Hn|Hn].
  - apply list_elem_of_fmap in Hn as (tm & -> & Htm).
    rewrite (registerAll_lookup_NoDup _ md) by done.
    rewrite (registerAll_lookup_NoDup _ md'); [done|done|by rewrite <- Hp].
  - rewrite (registerAll_lookup_notin _ md) by done.
    rewrite (registerAll_lookup_notin _ md'); [done|by rewrite <- Hp].
Qed.

(** X13: with unique type names the order of the descriptors does not
    matter for the result: a reordering of the metadata succeeds exactly when
    the original does, and then yields a registry with the same type set
    under every name.  (When the construction fails, which exception is
    raised is left open.) *)
Theorem buildTypeSets_order_independent config dbMetadata dbMetadata' :
  dbMetadata ≡ₚ dbMetadata' → NoDup (type_name <$> dbMetadata) →
  sameUpToException (outcome (buildTypeSets config dbMetadata))
                    (outcome (buildTypeSets config dbMetadata')).
Proof.
  intros Hp Hnd. apply buildTypeSets_outcome_registry.
  by apply registerAll_Permutation.
Qed.

Lemma buildTypeSets_order_independent_witness :
  sameUpToException (outcome (buildTypeSets customOnly [Author; Book]))
                    (outcome (buildTypeSets customOnly [Book; Author])).
Proof.
  apply (buildTypeSets_order_independent customOnly [Author; Book] [Book; Author]).
  - apply perm_swap.
  - compute_done.
Defined.

(** ** When the construction succeeds *)

Lemma createField_Ok_referenced field (getTypeSet : string -> option TypeSet) fd n :
  createField field getTypeSet = Ok fd → referencedName field = Some n →
  is_Some (getTypeSet n).
Proof.
  intros (t & a & r & Hb & _)%createField_Ok. unfold referencedName.
  rewrite createFieldBranch_branchOf in Hb.
  destruct (branchOf field) as [target|scalar|]; [|done|]; intros [= <-].
  - destruct (getTypeSet target); [by eexists|done].
  - destruct (getTypeSet (field_type field)); [by eexists|done].
Qed.

Lemma resolvable_referenced names field :
  resolvable names field = true ↔
  ∀ n, referencedName field = Some n → n ∈ names.
Proof.
  unfold resolvable, referencedName.
  destruct (branchOf field) as [target|scalar|].
  - rewrite bool_decide_eq_true. split; [by intros ? ? [= <-]|auto].
  - split; [by intros _ ? ?|done].
  - rewrite bool_decide_eq_true. split; [by intros ? ? [= <-]|auto].
Qed.

Lemma Run_isOk_true {A} (r : Run A) :
  isOk (outcome r) = true ↔ ∃ a, outcome r = Ok a.
Proof. apply isOk_true. Qed.

(** X14: with unique type names, [createSchema] returns a schema exactly when
    there are no common types, every descriptor has a non-empty name and
    every name that a field refers to (the target of a connection field, the
    type string of a reference field) is the name of a descriptor. *)
Theorem createSchema_Ok_iff config dbMetadata :
  NoDup (type_name <$> dbMetadata) →
  isOk (outcome (createSchema config dbMetadata)) = true ↔
  commonTypes config = ∅ ∧ ("" ∉ type_name <$> dbMetadata) ∧
  wellFormed dbMetadata = true.
Proof.
  intros Hnd. rewrite Run_isOk_true. split.
  - intros (schema & (typeSets & Hbuild)%createSchema_outcome_Ok).
    pose proof (buildTypeSets_Ok_named _ _ _ Hbuild) as Hnamed.
    apply buildTypeSets_Ok in Hbuild as [Hc Hpass2].
    split; [done|]. split; [done|].
    unfold wellFormed. apply forallb_forall. intros tm Htm%list_elem_of_In.
    apply forallb_forall. intros field Hf%list_elem_of_In.
    destruct (pass2_lookup _ _ tm Hpass2 Hnd Htm)
      as (ts & fields & _ & _ & Hg & _).
    apply getFields_createType in Hg as (fds & Hfds & _).
    apply list_elem_of_lookup in Hf as [i Hi].
    destruct (Forall2_lookup_l _ _ _ _ _ Hfds Hi) as (fd & _ & Hfd).
    apply resolvable_referenced. intros n Hn.
    pose proof (createField_Ok_referenced _ _ _ _ Hfd Hn) as Hreg.
    apply registerAll_is_Some in Hreg as [[? H]|?];
      [by rewrite lookup_empty in H|done].
  - intros (Hc & Hnamed & Hwf).
    destruct (buildTypeSets_total config dbMetadata Hc Hnamed Hwf)
      as [typeSets Hts].
    by apply createSchema_total with typeSets.
Qed.

Lemma createSchema_Ok_iff_witness :
  isOk (outcome (createSchema customOnly [Author; Book])) = true ↔
  commonTypes customOnly = ∅ ∧ ("" ∉ type_name <$> [Author; Book]) ∧
  wellFormed [Author; Book] = true.
Proof.
  apply (createSchema_Ok_iff customOnly [Author; Book]). compute_done.
Defined.

Lemma createField_connection_Throw field getTypeSet target :
  field_type field = "connection" → field_target field = Some target →
  getTypeSet target = None →
  createField field getTypeSet =
    Throw (TypeError "Cannot read property 'connection' of undefined").
Proof.
  intros Ht Htarget Hg. unfold createField.
  by rewrite createFieldBranch_branchOf, (branchOf_connection _ target), Hg.
Qed.

(** X15: a connection field whose target is not the name of any descriptor
    makes the construction raise (type names unique): no schema is
    returned. *)
Theorem unregistered_target_aborts config dbMetadata tm field target :
  NoDup (type_name <$> dbMetadata) →
  tm ∈ dbMetadata → field ∈ type_fields tm →
  field_type field = "connection" → field_target field = Some target →
  target ∉ type_name <$> dbMetadata →
  ∃ e, outcome (createSchema config dbMetadata) = Throw e.
Proof.
  intros Hnd Htm Hf Hconn Htarget Hname.
  eapply createSchema_aborts; [done..|].
  apply createField_connection_Throw with target; [done..|].
  apply eq_None_not_Some. rewrite registerAll_is_Some.
  intros [[? H]|?]; [by rewrite lookup_empty in H|done].
Qed.

Lemma unregistered_target_aborts_witness :
  ("Item" ∉ type_name <$> [Catalogue; Book; Author]) ∧
  ∃ e, outcome (createSchema customOnly [Catalogue; Book; Author]) = Throw e.
Proof.
  assert (Hname : "Item" ∉ type_name <$> [Catalogue; Book; Author]).
  { intros H. repeat (apply elem_of_cons in H as [H|H]; [discriminate H|]).
    by apply elem_of_nil in H. }
  split; [exact Hname|].
  apply (unregistered_target_aborts customOnly [Catalogue; Book; Author]
           Catalogue
           (fieldOf "items" "connection" None (Some "Item") (Some "catalogueId"))
           "Item").
  - compute_done.
  - left.
  - right. left.
  - reflexivity.
  - reflexivity.
  - exact Hname.
Defined.

(** ** Scalar and reference fields in the input object *)

Lemma createField_registered md field fd :
  createField field (fun name => registerAll createInterfaces md ∅ !! name)
    = Ok fd →
  match branchOf field with
  | ConnectionBranch target =>
      ∃ tm, fd_type fd =
              wrapRequired field
                (GraphQLObject
                   (createConnection
                      {| type := objectTypeOf tm; connection := None;
                         inputObject := None; mutation := None |}
                      createInterfaces))
  | PrimitiveBranch scalar =>
      fd_type fd = wrapRequired field scalar ∧ isScalarType scalar = true
  | ReferenceBranch =>
      ∃ tm, fd_type fd = wrapRequired field (GraphQLObject (objectTypeOf tm))
  end.
Proof.
  intros (t & a & r & Hb & ->)%createField_Ok. simpl.
  rewrite createFieldBranch_branchOf in Hb.
  destruct (branchOf field) as [target|scalar|] eqn:E.
  - apply result_bind_Ok in Hb
      as (ts & Hts & (c & Hc & [= <- _ _])%result_bind_Ok).
    destruct (registerAll createInterfaces md ∅ !! target) as [ts'|] eqn:Hreg;
      [|done].
    injection Hts as ->.
    apply registerAll_lookup_Some in Hreg as [Hreg|(tm & _ & _ & ->)];
      [by rewrite lookup_empty in Hreg|].
    injection Hc as <-. by exists tm.
  - injection Hb as <- _ _. split; [done|].
    by apply branchOf_primitive, PRIMITIVE_TYPE_MAP_scalar in E.
  - apply result_bind_Ok in Hb as (ts & Hts & [= <- _ _]).
    destruct (registerAll createInterfaces md ∅ !! field_type field)
      as [ts'|] eqn:Hreg; [|done].
    injection Hts as ->.
    apply registerAll_lookup_Some in Hreg as [Hreg|(tm & _ & _ & ->)];
      [by rewrite lookup_empty in Hreg|].
    by exists tm.
Qed.

(** X10: what the input object of a registered type holds for each of its
    fields, in a construction that succeeded (field names unique, the field
    named neither "id" nor "__proto__").  A primitive field keeps its exposed type, non-null
    wrapper included.  A reference field becomes a string, non-null when the
    field is required.  A connection field is absent, unless it is required:
    then it is a non-null string. *)
Theorem input_object_fields config dbMetadata typeSets tm typeSet field :
  outcome (buildTypeSets config dbMetadata) = Ok typeSets →
  typeSets !! type_name tm = Some typeSet →
  type typeSet = objectTypeOf tm →
  NoDup (field_name <$> type_fields tm) →
  field ∈ type_fields tm →
  field_name field ≠ "id" → field_name field ≠ "__proto__" →
  ∃ name fields,
    inputObject typeSet = Some (GraphQLInputObjectType name fields) ∧
    match branchOf field with
    | PrimitiveBranch scalar =>
        (field_name field, wrapRequired field scalar) ∈ fields
    | ReferenceBranch =>
        (field_name field, wrapRequired field GraphQLString) ∈ fields
    | ConnectionBranch _ =>
        if isRequired field
        then (field_name field, GraphQLNonNull GraphQLString) ∈ fields
        else field_name field ∉ fields.*1
    end.
Proof.
  intros [_ Hbuild]%buildTypeSets_Ok Hlookup Htype Hnd Hin Hid Hproto.
  destruct (mapValues_lookup_inv _ _ _ _ _ Hbuild Hlookup)
    as (ts0 & _ & (io & m & Hio & _ & ->)%augmentTypeSet_Ok).
  simpl in Htype. unfold createInputObject in Hio. simpl in Hio.
  apply result_bind_Ok in Hio as (objectFields & Hg & [= <-]).
  rewrite Htype in Hg. eexists _, _. split; [done|].
  destruct (getFields_createType_NoDup _ _ _ _ Hnd Hproto Hg Hin)
    as (Hkeys & fd & Hfd & Hfdin).
  assert (Hname : String.eqb (field_name field) "id" = false)
    by by apply String.eqb_neq.
  pose proof (createField_registered _ _ _ Hfd) as Hty.
  unfold wrapRequired in *.
  destruct (branchOf field) as [target|scalar|].
  - destruct Hty as [tm' Hty]. destruct (isRequired field).
    + apply inputFields_elem_of. exists fd. split; [done|].
      unfold keepInputField. rewrite Hname, Hty. done.
    + intros (fd' & Hfd' & Hk)%inputFields_keys.
      rewrite <- (NoDup_fst_functional _ _ _ _ Hkeys Hfdin Hfd') in Hk.
      unfold keepInputField in Hk. rewrite Hname, Hty in Hk.
      by vm_compute in Hk.
  - destruct Hty as [Hty Hs].
    apply inputFields_elem_of. exists fd. split; [done|].
    unfold keepInputField. rewrite Hname, Hty.
    destruct (isRequired field), scalar; done.
  - destruct Hty as [tm' Hty].
    apply inputFields_elem_of. exists fd. split; [done|].
    unfold keepInputField. rewrite Hname, Hty.
    destruct (isRequired field); done.
Qed.

Lemma input_object_fields_witness :
  ∃ name fields,
    inputObject (augmented sampleTypeSets bookTypeSet)
      = Some (GraphQLInputObjectType name fields) ∧
    ("author", GraphQLNonNull GraphQLString) ∈ fields.
Proof.
  apply (input_object_fields customOnly [Author; Book] builtTypeSets Book
           (augmented sampleTypeSets bookTypeSet)
           (fieldOf "author" "Author" (Some true) None None)).
  - exact buildTypeSets_sample.
  - vm_compute; reflexivity.
  - reflexivity.
  - compute_done.
  - right. right. left.
  - discriminate.
  - discriminate.
Defined.

(** ** Mutation types and root types *)

(** X16: the mutation type of an object type is named after it, declares the
    Mutation interface and has the field [clientMutationId] of type ID and a
    field named like the object type, of that type; when the object type is
    itself named "clientMutationId" the second definition replaces the first
    and one field is left. *)
Theorem createMutation_fields typeSet interfaces :
  createMutation typeSet (Some interfaces) =
    Ok (ObjectType ("_" +:+ nameOf (type typeSet) +:+ "Mutation")
          [Mutation interfaces]
          (FieldsLiteral
             (if String.eqb (nameOf (type typeSet)) "clientMutationId"
              then [("clientMutationId", GraphQLObject (type typeSet))]
              else [("clientMutationId", GraphQLID);
                    (nameOf (type typeSet), GraphQLObject (type typeSet))]))).
Proof.
  unfold createMutation, objectLiteral. simpl.
  by destruct (String.eqb_spec (nameOf (type typeSet)) "clientMutationId")
    as [->|_].
Qed.

Lemma createSchema_sample :
  outcome (createSchema customOnly [Author; Book]) = Ok sampleSchema.
Proof. vm_compute; reflexivity. Qed.

(** ** The calls of a run *)

Lemma barrier_without_common_types_witness :
  barrier (type_name <$> [Author; Book])
          (trace (createSchema customOnly [Author; Book])).
Proof.
  apply (barrier_without_common_types customOnly [Author; Book]). reflexivity.
Defined.

Lemma trace_bind_Ok {A B} (m : Run A) (f : A -> Run B) b :
  outcome (m ≫= f) = Ok b →
  ∃ a, outcome m = Ok a ∧ outcome (f a) = Ok b ∧
       trace (m ≫= f) = trace m ++ trace (f a).
Proof.
  intros H. pose proof H as (a & Ha & Hb)%Run_bind_Ok.
  exists a. split; [done|]. split; [done|]. by apply Run_bind_trace.
Qed.

Lemma trace_mapM_Ok {A B} (f : A -> Run B) l l' :
  outcome (mapM f l) = Ok l' →
  trace (mapM f l) = flat_map (fun x => trace (f x)) l.
Proof.
  revert l'. induction l as [|x l IH]; intros l'; [done|].
  change (mapM f (x :: l)) with (y ← f x; k ← mapM f l; mret (y :: k)).
  intros (y & Hy & Hrest & ->)%trace_bind_Ok.
  apply trace_bind_Ok in Hrest as (k & Hk & _ & ->).
  simpl. rewrite app_nil_r. f_equal. by eapply IH.
Qed.

Lemma trace_augmentTypeSet_Ok interfaces typeSets typeSet typeSet' :
  outcome (augmentTypeSet interfaces typeSets typeSet) = Ok typeSet' →
  trace (augmentTypeSet interfaces typeSets typeSet) =
    [CreateInputObject (nameOf (type typeSet));
     CreateMutation (nameOf (type typeSet))].
Proof.
  unfold augmentTypeSet.
  intros (io & Hio & Hrest & ->)%trace_bind_Ok.
  by apply trace_bind_Ok in Hrest as (m & Hm & _ & ->).
Qed.

Lemma trace_pass2_Ok md typeSets :
  outcome (mapValues
             (augmentTypeSet createInterfaces (registerAll createInterfaces md ∅))
             (registerAll createInterfaces md ∅)) = Ok typeSets →
  trace (mapValues
           (augmentTypeSet createInterfaces (registerAll createInterfaces md ∅))
           (registerAll createInterfaces md ∅)) =
    pass2Events (map_to_list (registerAll createInterfaces md ∅)).*1.
Proof.
  unfold mapValues. intros (entries & He & _ & ->)%trace_bind_Ok.
  simpl. rewrite app_nil_r, (trace_mapM_Ok _ _ _ He).
  apply mapM_Run_Ok in He. unfold pass2Events.
  assert (Hreg : ∀ kv, kv ∈ map_to_list (registerAll createInterfaces md ∅) →
                       nameOf (type kv.2) = kv.1).
  { intros [k ts] Hk%elem_of_map_to_list.
    apply registerAll_lookup_Some in Hk as [Hk|(tm & _ & <- & ->)];
      [by rewrite lookup_empty in Hk|done]. }
  induction He as [|[k ts] kv' l entries' Hkv _ IH]; [done|].
  apply trace_bind_Ok in Hkv as (ts' & Hts' & _ & Htr).
  simpl in *. rewrite Htr, IH by (intros; apply Hreg; by right).
  rewrite (trace_augmentTypeSet_Ok _ _ _ _ Hts'). simpl.
  specialize (Hreg (k, ts) ltac:(left)). simpl in Hreg. by rewrite Hreg.
Qed.

(** X19: the calls of a run that returns a schema.  First, for each
    descriptor in order, [createType], [createConnection] and the
    registration; then, for each registered name once, [createInputObject]
    followed by [createMutation]; and nothing else. *)
Theorem successful_run_trace config dbMetadata schema :
  outcome (createSchema config dbMetadata) = Ok schema →
  ∃ order,
    NoDup order ∧
    (∀ n, n ∈ order ↔ n ∈ type_name <$> dbMetadata) ∧
    trace (createSchema config dbMetadata) =
      pass1Events dbMetadata ++ pass2Events order.
Proof.
  intros (typeSets & Hbuild)%createSchema_outcome_Ok.
  pose proof (buildTypeSets_Ok_named _ _ _ Hbuild) as Hnamed.
  apply buildTypeSets_Ok in Hbuild as [Hc Hpass2].
  exists (map_to_list (registerAll createInterfaces dbMetadata ∅)).*1.
  split; [apply NoDup_fst_map_to_list|]. split.
  - intros n. rewrite list_elem_of_fmap. split.
    + intros ([k ts] & -> & Hk%elem_of_map_to_list). simpl.
      assert (is_Some (registerAll createInterfaces dbMetadata ∅ !! k)) as H
        by by eexists.
      apply registerAll_is_Some in H as [[? H]|?];
        [by rewrite lookup_empty in H|done].
    + intros Hn.
      destruct (proj2 (registerAll_is_Some createInterfaces dbMetadata ∅ n))
        as [ts Hts]; [by right|].
      exists (n, ts). split; [done|]. by apply elem_of_map_to_list.
  - rewrite createSchema_trace, buildTypeSets_no_common by done. simpl.
    by rewrite (trace_pass2_Ok _ _ Hpass2).
Qed.

Lemma successful_run_trace_witness :
  ∃ order,
    NoDup order ∧
    (∀ n, n ∈ order ↔ n ∈ type_name <$> [Author; Book]) ∧
    trace (createSchema customOnly [Author; Book]) =
      pass1Events [Author; Book] ++ pass2Events order.
Proof.
  exact (successful_run_trace customOnly [Author; Book] sampleSchema
           createSchema_sample).
Defined.
